(** * c-set: a growable, header-prefixed element buffer (set.c / set.h)

    Shallow embedding of the C sources.  A container is one heap block laid
    out as [size | capacity | data bytes]; the public handle points at the
    data and the header is recovered at a fixed negative offset.  The heap is
    a finite map from block addresses to blocks, every C function is a
    computation in a state-and-failure monad over that heap, and [None]
    stands for undefined behaviour (stale handle, out-of-bounds access). *)

From Stdlib Require Import ZArith List Lia.
From stdpp Require Import base option list gmap.

Local Open Scope Z_scope.

(** ** Machine integers and bytes *)

Abbreviation byte := Byte.byte.

(** [size_t] (and so [set_size_t], [set_type_t]) is a 64-bit unsigned integer
    (LP64); arithmetic on it wraps. *)
Definition SIZE_MAX : Z := 2 ^ 64 - 1.

Definition size_wrap (z : Z) : Z := z mod 2 ^ 64.

(** [sizeof(set_header)]: two [size_t] fields, the flexible array member
    adds nothing. *)
Definition sizeof_set_header : Z := 16.

(** [(unsigned char)value] for an integer value. *)
Definition uchar (v : Z) : byte :=
  default Byte.x00 (Byte.of_N (Z.to_N (v mod 256))).

(** ** Blocks and the heap *)

(** One allocation: the two header fields and the bytes that follow them.
    The number of bytes allocated after the header is [length data]. *)
Record set_header : Type := mk_header {
  size : Z;
  capacity : Z;
  data : list byte
}.

(** The handle [set] (a [void*] to the data) identifies its block. *)
Abbreviation set := positive (only parsing).
Abbreviation heap := (gmap positive set_header) (only parsing).

(** What the C library leaves unspecified: the contents of fresh memory and
    whether [realloc] moves the block. *)
Record allocator : Type := mk_allocator {
  junk : nat -> byte;
  junk_word : Z;
  moves : positive -> Z -> bool
}.

(** ** The monad of heap computations *)

Definition M (A : Type) : Type := heap -> option (A * heap).

Definition ret {A} (a : A) : M A := fun hp => Some (a, hp).

Definition bind {A B} (m : M A) (k : A -> M B) : M B :=
  fun hp => match m hp with
            | Some (a, hp') => k a hp'
            | None => None
            end.

Definition undefined {A} : M A := fun _ => None.

Notation "x <- m ;; k" := (bind m (fun x => k))
  (at level 100, m at next level, right associativity).
Notation "m ;;; k" := (bind m (fun _ => k))
  (at level 100, right associativity).

(** Reading and writing the block behind a header pointer. *)
Definition load (h : set) : M set_header :=
  fun hp => match hp !! h with
            | Some blk => Some (blk, hp)
            | None => None
            end.

Definition store (h : set) (blk : set_header) : M unit :=
  fun hp => match hp !! h with
            | Some _ => Some (tt, <[h := blk]> hp)
            | None => None
            end.

Definition set_field_size (h : set) (v : Z) : M unit :=
  blk <- load h ;; store h (mk_header v (capacity blk) (data blk)).

Definition set_field_capacity (h : set) (v : Z) : M unit :=
  blk <- load h ;; store h (mk_header (size blk) v (data blk)).

(** ** libc: malloc, realloc, free, memmove, memcpy *)

Section Libc.
Variable al : allocator.

(** [n] bytes of fresh memory starting at data offset [from]. *)
Definition fresh_bytes (from n : nat) : list byte :=
  map (junk al) (seq from n).

(** Resize a byte region to [n] bytes: the common prefix is kept, the rest
    is fresh. *)
Definition resize (d : list byte) (n : nat) : list byte :=
  take n d ++ fresh_bytes (length d) (n - length d).

(** [malloc(n)].  A block too small to hold the header is of no use to any
    caller in this program (each one writes a header field next), so the
    request is treated as undefined. *)
Definition malloc (n : Z) : M set :=
  fun hp =>
    if n <? sizeof_set_header then None
    else
      let p := fresh (dom hp) in
      Some (p, <[p := mk_header (size_wrap (junk_word al))
                                (size_wrap (junk_word al))
                                (fresh_bytes 0 (Z.to_nat (n - sizeof_set_header)))]> hp).

(** [realloc(h, n)]: same header fields, data resized, possibly at a new
    address; the old address is released when the block moves. *)
Definition realloc (h : set) (n : Z) : M set :=
  fun hp =>
    match hp !! h with
    | None => None
    | Some blk =>
        if n <? sizeof_set_header then None
        else
          let blk' := mk_header (size blk) (capacity blk)
                        (resize (data blk) (Z.to_nat (n - sizeof_set_header))) in
          if moves al h n then
            let p := fresh (dom hp) in
            Some (p, <[p := blk']> (delete h hp))
          else Some (h, <[h := blk']> hp)
    end.

Definition free (h : set) : M unit :=
  fun hp => match hp !! h with
            | Some _ => Some (tt, delete h hp)
            | None => None
            end.
End Libc.

(** [memmove(&d[dst], &d[src], n)] inside one data region; both ranges must
    lie inside the region. *)
Definition memmove (d : list byte) (dst src n : Z) : option (list byte) :=
  if (dst + n <=? Z.of_nat (length d)) && (src + n <=? Z.of_nat (length d)) then
    Some (take (Z.to_nat dst) d
          ++ take (Z.to_nat n) (drop (Z.to_nat src) d)
          ++ drop (Z.to_nat (dst + n)) d)
  else None.

(** Storing an object of [length v] bytes through a pointer to data offset
    [off] (the caller's [*dst = value]). *)
Definition write_bytes (d : list byte) (off : Z) (v : list byte) : option (list byte) :=
  if off + Z.of_nat (length v) <=? Z.of_nat (length d) then
    Some (take (Z.to_nat off) d ++ v ++ drop (Z.to_nat off + length v) d)
  else None.

Definition store_at (st : set) (off : Z) (v : list byte) : M unit :=
  blk <- load st ;;
  match write_bytes (data blk) off v with
  | Some d' => store st (mk_header (size blk) (capacity blk) d')
  | None => undefined
  end.

(** [memmove] on the data of the block behind [h]. *)
Definition memmove_data (h : set) (dst src n : Z) : M unit :=
  blk <- load h ;;
  match memmove (data blk) dst src n with
  | Some d' => store h (mk_header (size blk) (capacity blk) d')
  | None => undefined
  end.

(** [memcpy(dst, src, n)] between two blocks, header included: the first [n]
    bytes of the source block overwrite the first [n] bytes of the
    destination block. *)
Definition memcpy_block (dst src : set) (n : Z) : M unit :=
  s <- load src ;;
  d <- load dst ;;
  let k := Z.to_nat (n - sizeof_set_header) in
  if (n <? sizeof_set_header)
     || (Z.of_nat (length (data s)) <? n - sizeof_set_header)
     || (Z.of_nat (length (data d)) <? n - sizeof_set_header)
  then undefined
  else store dst (mk_header (size s) (capacity s) (take k (data s) ++ drop k (data d))).

(** ** set.c *)

Section SetC.
Variable al : allocator.

(** [&((set_header* )st)[-1]]: the handle and its header name the same
    block. *)
Definition set_get_header (st : set) : set := st.

Definition set_create : M set :=
  h <- malloc al sizeof_set_header ;;
  set_field_capacity h 0 ;;;
  set_field_size h 0 ;;;
  ret h.

Definition set_free (st : set) : M unit := free (set_get_header st).

Definition set_size (st : set) : M Z :=
  blk <- load (set_get_header st) ;; ret (size blk).

Definition set_capacity (st : set) : M Z :=
  blk <- load (set_get_header st) ;; ret (capacity blk).

Definition set_realloc (h : set) (type_size : Z) : M set :=
  blk <- load h ;;
  let new_capacity :=
    if capacity blk =? 0 then 1 else size_wrap (capacity blk * 2) in
  new_h <- realloc al h
             (size_wrap (sizeof_set_header + size_wrap (new_capacity * type_size))) ;;
  set_field_capacity new_h new_capacity ;;;
  ret new_h.

Definition set_has_space (h : set) : M bool :=
  blk <- load h ;; ret (0 <? size_wrap (capacity blk - size blk)).

(** Returns the refreshed handle ([*set_addr]) and the data offset of the
    returned slot pointer. *)
Definition _set_add_dst (st : set) (type_size : Z) : M (set * Z) :=
  let h := set_get_header st in
  has_space <- set_has_space h ;;
  h <- (if negb has_space then set_realloc h type_size else ret h) ;;
  blk <- load h ;;
  set_field_size h (size_wrap (size blk + 1)) ;;;
  ret (h, size_wrap (type_size * size blk)).

Definition _set_insert_dst (st : set) (type_size pos : Z) : M (set * Z) :=
  let h := set_get_header st in
  blk0 <- load h ;;
  let new_length := size_wrap (size blk0 + 1) in
  has_space <- set_has_space h ;;
  h <- (if negb has_space then set_realloc h type_size else ret h) ;;
  blk <- load h ;;
  memmove_data h (size_wrap (size_wrap (pos + 1) * type_size))
                 (size_wrap (pos * type_size))
                 (size_wrap (size_wrap (size blk - pos) * type_size)) ;;;
  set_field_size h new_length ;;;
  ret (h, size_wrap (pos * type_size)).

Definition _set_erase (st : set) (type_size pos len : Z) : M unit :=
  let h := set_get_header st in
  blk <- load h ;;
  memmove_data h (size_wrap (pos * type_size))
                 (size_wrap (size_wrap (pos + len) * type_size))
                 (size_wrap (size_wrap (size_wrap (size blk - pos) - len) * type_size)) ;;;
  blk' <- load h ;;
  set_field_size h (size_wrap (size blk' - len)).

Definition _set_remove (st : set) (type_size pos : Z) : M unit :=
  _set_erase st type_size pos 1.

Definition set_pop (st : set) : M unit :=
  blk <- load (set_get_header st) ;;
  set_field_size (set_get_header st) (size_wrap (size blk - 1)).

(** Returns the refreshed handle. *)
Definition _set_reserve (st : set) (type_size capacity' : Z) : M set :=
  let h := set_get_header st in
  blk <- load h ;;
  if capacity' <=? capacity blk then ret st
  else
    h <- realloc al h
           (size_wrap (sizeof_set_header + size_wrap (capacity' * type_size))) ;;
    set_field_capacity h capacity' ;;;
    ret h.

Definition _set_copy (st : set) (type_size : Z) : M set :=
  let h := set_get_header st in
  blk <- load h ;;
  let alloc_size :=
    size_wrap (sizeof_set_header + size_wrap (size blk * type_size)) in
  copy_h <- malloc al alloc_size ;;
  memcpy_block copy_h h alloc_size ;;;
  cblk <- load copy_h ;;
  set_field_capacity copy_h (size cblk) ;;;
  ret copy_h.
End SetC.

(** ** set.h: the typed macro layer *)

(** Element values are unsigned integers of [type_size] bytes; their object
    representation depends on the byte order of the machine. *)
Inductive endianness : Type := LittleEndian | BigEndian.

Fixpoint le_bytes (n : nat) (v : Z) : list byte :=
  match n with
  | O => []
  | S k => uchar v :: le_bytes k (v / 256)
  end.

Definition object_repr (e : endianness) (type_size : Z) (v : Z) : list byte :=
  match e with
  | LittleEndian => le_bytes (Z.to_nat type_size) v
  | BigEndian => rev (le_bytes (Z.to_nat type_size) v)
  end.

Section SetH.
Variable al : allocator.
Variable e : endianness.

(** [bool set_contains(set* set_addr, unsigned char value)]: set.h declares
    this function and no source file defines it (the macro of the same
    name in set.c comes after the include, is expanded nowhere and is not
    visible to the users of set.h).  Its body is therefore a parameter:
    what is stated about [set_add] and [set_insert] below holds whatever
    definition is linked in. *)
Variable set_contains : set -> byte -> M bool.

(** [set_add(set_addr, value)] with [sizeof( **set_addr) = type_size]:
    [if (!set_contains((set* )set_addr, (unsigned char)value))
       { *set_add_dst(set_addr) = value; }]. *)
Definition set_add (st : set) (type_size : Z) (value : Z) : M set :=
  found <- set_contains st (uchar value) ;;
  if negb found then
    r <- _set_add_dst al st type_size ;;
    store_at (fst r) (snd r) (object_repr e type_size value) ;;;
    ret (fst r)
  else ret st.

(** [set_insert(set_addr, pos, value)]. *)
Definition set_insert (st : set) (type_size pos : Z) (value : Z) : M set :=
  found <- set_contains st (uchar value) ;;
  if negb found then
    r <- _set_insert_dst al st type_size pos ;;
    store_at (fst r) (snd r) (object_repr e type_size value) ;;;
    ret (fst r)
  else ret st.
End SetH.

(** ** The element view of a block *)

(** The first [n] consecutive [ts]-byte chunks of a byte region. *)
Fixpoint chunks (ts n : nat) (d : list byte) : list (list byte) :=
  match n with
  | O => []
  | S k => take ts d :: chunks ts k (drop ts d)
  end.

(** The live elements [st[0] .. st[size-1]], each as its bytes. *)
Definition elements (type_size : Z) (blk : set_header) : list (list byte) :=
  chunks (Z.to_nat type_size) (Z.to_nat (size blk)) (data blk).

(** Reading [st[i]]. *)
Definition element_at (type_size : Z) (blk : set_header) (i : Z) : list byte :=
  take (Z.to_nat type_size) (drop (Z.to_nat (i * type_size)) (data blk)).

(** The representation invariant of section 3 of the specification, with
    the bound that makes the allocation size representable. *)
Record wf (type_size : Z) (blk : set_header) : Prop := mk_wf {
  wf_type_size : 0 < type_size;
  wf_size : 0 <= size blk <= capacity blk;
  wf_data : Z.of_nat (length (data blk)) = capacity blk * type_size;
  wf_alloc : sizeof_set_header + capacity blk * type_size <= SIZE_MAX
}.

(** A request for [k] slots that [size_t] can express. *)
Definition alloc_ok (type_size k : Z) : Prop :=
  sizeof_set_header + k * type_size <= SIZE_MAX.

(** ** Vocabulary of the statements *)

(** The heap [hp'] is [hp] with the block at [h] replaced by [blk'], now
    found at [h'], which is either [h] itself or an address unused in [hp];
    every other block is as it was. *)
Definition updated (hp : heap) (h h' : set) (blk' : set_header) (hp' : heap) : Prop :=
  hp' = <[h' := blk']> (delete h hp) ∧ (h' = h ∨ hp !! h' = None).

(** The guard that opens [_set_add_dst] and [_set_insert_dst] (the
    grow-if-needed step of the specification):
    [if (!set_has_space(h)) { h = set_realloc(h, type_size); ... }]. *)
Definition grow_if_needed (al : allocator) (h : set) (type_size : Z) : M set :=
  has_space <- set_has_space h ;;
  if negb has_space then set_realloc al h type_size else ret h.

(** Everything a caller can do to a live container of [type_size]-byte
    elements through its handle. *)
Inductive mutation : Type :=
| AddDst
| InsertDst (pos : Z)
| Erase (pos len : Z)
| Remove (pos : Z)
| Pop
| Reserve (capacity' : Z)
| StoreAt (off : Z) (v : list byte).

(** Runs one mutation and returns the handle to use afterwards. *)
Definition mutate (al : allocator) (type_size : Z) (m : mutation) (st : set) : M set :=
  match m with
  | AddDst => r <- _set_add_dst al st type_size ;; ret (fst r)
  | InsertDst pos => r <- _set_insert_dst al st type_size pos ;; ret (fst r)
  | Erase pos len => _set_erase st type_size pos len ;;; ret st
  | Remove pos => _set_remove st type_size pos ;;; ret st
  | Pop => set_pop st ;;; ret st
  | Reserve k => _set_reserve al st type_size k
  | StoreAt off v => store_at st off v ;;; ret st
  end.

Fixpoint mutate_all (al : allocator) (type_size : Z) (ms : list mutation) (st : set)
  : M set :=
  match ms with
  | [] => ret st
  | m :: ms' => st' <- mutate al type_size m st ;; mutate_all al type_size ms' st'
  end.

(** What each mutation asks of the container it is applied to (section 4 of
    the specification), with the bound that keeps a requested allocation
    size representable. *)
Definition precondition (type_size : Z) (m : mutation) (blk : set_header) : Prop :=
  let may_grow :=
    size blk = capacity blk -> alloc_ok type_size (Z.max 1 (capacity blk * 2)) in
  match m with
  | AddDst => may_grow
  | InsertDst pos => 0 <= pos <= size blk /\ may_grow
  | Erase pos len => 0 <= pos /\ 0 <= len /\ pos + len <= size blk
  | Remove pos => 0 <= pos < size blk
  | Pop => 0 < size blk
  | Reserve k => capacity blk < k -> alloc_ok type_size k
  | StoreAt off v => 0 <= off /\ off + Z.of_nat (length v) <= capacity blk * type_size
  end.

(** Appending the elements [vs] one after the other: take a slot with
    [_set_add_dst], write the element through the returned pointer.  Returns
    the final handle and the data offset of every slot handed out. *)
Fixpoint append_all (al : allocator) (type_size : Z) (st : set) (vs : list (list byte))
  : M (set * list Z) :=
  match vs with
  | [] => ret (st, [])
  | v :: vs' =>
      r <- _set_add_dst al st type_size ;;
      store_at (fst r) (snd r) v ;;;
      rs <- append_all al type_size (fst r) vs' ;;
      ret (fst rs, snd r :: snd rs)
  end.

(** [k] growth steps in a row; returns the final handle and the capacity
    read after each step. *)
Fixpoint grow_times (al : allocator) (type_size : Z) (k : nat) (h : set)
  : M (set * list Z) :=
  match k with
  | O => ret (h, [])
  | S k' =>
      h' <- set_realloc al h type_size ;;
      c <- set_capacity h' ;;
      rs <- grow_times al type_size k' h' ;;
      ret (fst rs, c :: snd rs)
  end.

(** Every block other than the one at [h] is where and what it was, and
    the handle [h'] now in use for the container is none of them. *)
Definition others_kept (hp : heap) (h : set) (hp' : heap) (h' : set) : Prop :=
  forall q b, q ≠ h -> hp !! q = Some b -> hp' !! q = Some b /\ q ≠ h'.

(** The capacities the doubling policy can reach from an empty container:
    0 while nothing was added, afterwards the power of two [c] with
    [s <= c < 2 * s] for the size [s]. *)
Definition doubling_capacity (s c : Z) : Prop :=
  (s = 0 /\ c = 0) \/ exists k, 0 <= k /\ c = 2 ^ k /\ s <= c < 2 * s.

(** ** Sample containers *)

(** An allocator that fills fresh memory with [0xaa] and always moves. *)
Definition demo_allocator : allocator :=
  mk_allocator (fun _ => Byte.xaa) 0 (fun _ _ => true).

Definition demo_block : set_header :=
  mk_header 2 2 [Byte.x01; Byte.x02].

Definition demo_heap : gmap positive set_header := {[ 1%positive := demo_block ]}.

(** A container holding the single 2-byte element [0x0102] (low byte
    first), with room for one more. *)
Definition pair_block : set_header :=
  mk_header 1 2 [Byte.x02; Byte.x01; Byte.x00; Byte.x00].

Definition pair_heap : gmap positive set_header := {[ 1%positive := pair_block ]}.

(** A stand-in for the body that [set_contains] lacks, used to instantiate
    that parameter in examples: it reads the header and answers [found]. *)
Definition answering (found : bool) : set -> byte -> M bool :=
  fun st _ => _ <- load (set_get_header st) ;; ret found.

(** A container of capacity 4 holding the three 4-byte elements 1, 2, 3
    (low byte first). *)
Definition triple_block : set_header :=
  mk_header 3 4
    [Byte.x01; Byte.x00; Byte.x00; Byte.x00;
     Byte.x02; Byte.x00; Byte.x00; Byte.x00;
     Byte.x03; Byte.x00; Byte.x00; Byte.x00;
     Byte.x00; Byte.x00; Byte.x00; Byte.x00].

Definition triple_heap : gmap positive set_header := {[ 1%positive := triple_block ]}.

(** ** The worked example of the specification *)

(** Size, capacity and elements of a container, as a caller reads them. *)
Definition snapshot (type_size : Z) (st : set) : M (Z * Z * list (list byte)) :=
  blk <- load (set_get_header st) ;;
  ret (size blk, capacity blk, elements type_size blk).

(** Append [value] as a [type_size]-byte element. *)
Definition append_value (al : allocator) (e : endianness) (type_size : Z)
    (st : set) (value : Z) : M set :=
  r <- _set_add_dst al st type_size ;;
  store_at (fst r) (snd r) (object_repr e type_size value) ;;;
  ret (fst r).

(** Section 8: on an empty container of 4-byte elements append 1, 2, 3,
    insert 9 at position 1, remove at position 0; a snapshot is taken after
    each of the three stages. *)
Definition worked_example (al : allocator) (e : endianness)
  : M (list (Z * Z * list (list byte))) :=
  s <- set_create al ;;
  s <- append_value al e 4 s 1 ;;
  s <- append_value al e 4 s 2 ;;
  s <- append_value al e 4 s 3 ;;
  after_appends <- snapshot 4 s ;;
  r <- _set_insert_dst al s 4 1 ;;
  store_at (fst r) (snd r) (object_repr e 4 9) ;;;
  after_insert <- snapshot 4 (fst r) ;;
  _set_remove (fst r) 4 0 ;;;
  after_remove <- snapshot 4 (fst r) ;;
  ret [after_appends; after_insert; after_remove].

(** An allocator that resizes in place. *)
Definition in_place_allocator : allocator :=
  mk_allocator (fun _ => Byte.x55) 7 (fun _ _ => false).

(** * Properties *)

(** ** Arithmetic of [size_t] *)

Lemma size_wrap_small z : 0 <= z <= SIZE_MAX -> size_wrap z = z.
Proof. unfold size_wrap, SIZE_MAX. intros H. apply Z.mod_small. lia. Qed.

(** ** Chunks of a byte region *)

Section Chunks.
Variable ts : nat.

Lemma length_chunks n d : length (chunks ts n d) = n.
Proof. revert d. induction n as [|n IH]; intros d; simpl; [done|]. by rewrite IH. Qed.

Lemma chunks_app k m (a b : list byte) :
  length a = (k * ts)%nat ->
  chunks ts (k + m) (a ++ b) = chunks ts k a ++ chunks ts m b.
Proof.
  revert a. induction k as [|k IH]; intros a Ha; simpl in *.
  - by destruct a.
  - rewrite take_app_le, drop_app_le by lia.
    rewrite IH; [done|]. rewrite length_drop. lia.
Qed.

Lemma chunks_prefix k (a b : list byte) :
  (k * ts <= length a)%nat -> chunks ts k (a ++ b) = chunks ts k a.
Proof.
  revert a. induction k as [|k IH]; intros a Ha; simpl in *; [done|].
  rewrite take_app_le, drop_app_le by lia.
  rewrite IH; [done|]. rewrite length_drop. lia.
Qed.

Lemma chunks_take_data k (d : list byte) :
  chunks ts k (take (k * ts) d) = chunks ts k d.
Proof.
  destruct (decide (k * ts <= length d)%nat) as [Hle|Hgt].
  - rewrite <- (take_drop (k * ts) d) at 2.
    rewrite chunks_prefix; [done|]. rewrite length_take. lia.
  - rewrite take_ge by lia. done.
Qed.

Lemma take_chunks p n d :
  (p <= n)%nat -> take p (chunks ts n d) = chunks ts p d.
Proof.
  revert n d. induction p as [|p IH]; intros n d Hp; [done|].
  destruct n as [|n]; [lia|]. simpl. rewrite IH by lia. done.
Qed.

Lemma drop_chunks p n d :
  drop p (chunks ts (p + n) d) = chunks ts n (drop (p * ts) d).
Proof.
  revert d. induction p as [|p IH]; intros d; simpl; [done|].
  rewrite IH, drop_drop. done.
Qed.

Lemma lookup_chunks n d i :
  (i < n)%nat -> chunks ts n d !! i = Some (take ts (drop (i * ts) d)).
Proof.
  revert n d. induction i as [|i IH]; intros n d Hi;
    (destruct n as [|n]; [lia|]); simpl; [done|].
  rewrite IH by lia. rewrite drop_drop. done.
Qed.
End Chunks.

(** ** Stepping through heap computations *)

Lemma load_Some (hp : heap) h blk : hp !! h = Some blk -> load h hp = Some (blk, hp).
Proof. unfold load. by intros ->. Qed.

Lemma store_Some (hp : heap) h blk b :
  hp !! h = Some blk -> store h b hp = Some (tt, <[h := b]> hp).
Proof. unfold store. by intros ->. Qed.

Lemma set_field_size_Some (hp : heap) h blk v :
  hp !! h = Some blk ->
  set_field_size h v hp = Some (tt, <[h := mk_header v (capacity blk) (data blk)]> hp).
Proof.
  intros H. unfold set_field_size, bind. rewrite (load_Some _ _ _ H).
  by rewrite (store_Some _ _ _ _ H).
Qed.

Lemma set_field_capacity_Some (hp : heap) h blk v :
  hp !! h = Some blk ->
  set_field_capacity h v hp = Some (tt, <[h := mk_header (size blk) v (data blk)]> hp).
Proof.
  intros H. unfold set_field_capacity, bind. rewrite (load_Some _ _ _ H).
  by rewrite (store_Some _ _ _ _ H).
Qed.

(** ** Blocks that are replaced, possibly at a new address *)

Lemma updated_refl (hp : heap) h blk' :
  updated hp h h blk' (<[h := blk']> hp).
Proof. split; [by rewrite insert_delete_eq | by left]. Qed.

Lemma updated_lookup (hp hp' : heap) h h' blk' :
  updated hp h h' blk' hp' -> hp' !! h' = Some blk'.
Proof. intros [-> _]. apply lookup_insert_eq. Qed.

Lemma updated_frame (hp hp' : heap) h h' blk' q b :
  updated hp h h' blk' hp' -> q ≠ h -> hp !! q = Some b ->
  hp' !! q = Some b ∧ q ≠ h'.
Proof.
  intros [-> Hh'] Hq Hb.
  assert (q ≠ h') as Hne by (destruct Hh' as [->|Hn]; [done | congruence]).
  split; [|done]. by rewrite lookup_insert_ne, lookup_delete_ne.
Qed.

Lemma updated_trans (hp hp1 hp2 : heap) h h1 h2 b1 b2 :
  updated hp h h1 b1 hp1 -> updated hp1 h1 h2 b2 hp2 -> updated hp h h2 b2 hp2.
Proof.
  intros [-> H1] [-> H2]. split.
  - rewrite delete_insert_eq. f_equal.
    destruct H1 as [->|H1]; [by rewrite delete_delete_eq|].
    apply delete_id. destruct (decide (h1 = h)) as [->|]; [apply lookup_delete_eq|].
    by rewrite lookup_delete_ne.
  - destruct H2 as [->|H2]; [done|].
    destruct (decide (h2 = h)) as [|Hne]; [by left|right].
    destruct (decide (h2 = h1)) as [->|Hne1]; [by rewrite lookup_insert_eq in H2|].
    by rewrite lookup_insert_ne, lookup_delete_ne in H2.
Qed.

Lemma updated_insert (hp hp1 : heap) h h1 b1 b2 :
  updated hp h h1 b1 hp1 -> updated hp h h1 b2 (<[h1 := b2]> hp1).
Proof.
  intros H. eapply updated_trans; [exact H|]. apply updated_refl.
Qed.

Lemma updated_id (hp : heap) h blk : hp !! h = Some blk -> updated hp h h blk hp.
Proof.
  intros H. split; [|by left]. by rewrite insert_delete_eq, insert_id.
Qed.

(** ** Byte-level effect of the block moves *)

Lemma Z_is_nat z : 0 <= z -> exists n : nat, z = Z.of_nat n.
Proof. intros H. exists (Z.to_nat z). lia. Qed.

Lemma chunks_splice ts p m (A X R : list byte) :
  length A = (p * ts)%nat -> length X = ts ->
  chunks ts (p + S m) (A ++ X ++ R) = chunks ts p A ++ X :: chunks ts m R.
Proof.
  intros HA HX. rewrite chunks_app by done. f_equal.
  simpl. by rewrite take_app_length', drop_app_length'.
Qed.

Lemma memmove_insert_nat (d : list byte) (ts p m : nat) :
  ((p + m + 1) * ts <= length d)%nat ->
  memmove d (Z.of_nat ((p + 1) * ts)) (Z.of_nat (p * ts)) (Z.of_nat (m * ts))
  = Some (take (p * ts) d ++ take ts (drop (p * ts) d)
          ++ take (m * ts) (drop (p * ts) d) ++ drop ((p + m + 1) * ts) d).
Proof.
  intros Hlen. unfold memmove.
  rewrite andb_true_intro by (split; apply Z.leb_le; lia).
  f_equal. rewrite <- Nat2Z.inj_add, !Nat2Z.id.
  replace ((p + 1) * ts)%nat with (p * ts + ts)%nat by lia.
  rewrite <- take_take_drop, <- !(assoc_L (++)).
  do 3 f_equal. f_equal. lia.
Qed.

Lemma memmove_erase_nat (d : list byte) (ts p len m : nat) :
  ((p + len + m) * ts <= length d)%nat ->
  memmove d (Z.of_nat (p * ts)) (Z.of_nat ((p + len) * ts)) (Z.of_nat (m * ts))
  = Some (take (p * ts) d ++ take (m * ts) (drop ((p + len) * ts) d)
          ++ drop ((p + m) * ts) d).
Proof.
  intros Hlen. unfold memmove.
  rewrite andb_true_intro by (split; apply Z.leb_le; lia).
  f_equal. rewrite <- Nat2Z.inj_add, !Nat2Z.id.
  do 3 f_equal. lia.
Qed.

Lemma write_bytes_nat (d v : list byte) (off : nat) :
  (off + length v <= length d)%nat ->
  write_bytes d (Z.of_nat off) v
  = Some (take off d ++ v ++ drop (off + length v) d).
Proof.
  intros H. unfold write_bytes.
  replace (Z.of_nat off + Z.of_nat (length v) <=? Z.of_nat (length d)) with true
    by (symmetry; apply Z.leb_le; lia).
  by rewrite Nat2Z.id.
Qed.

(** Elements after the trailing block has been moved one slot right. *)
Lemma chunks_insert ts p m (d : list byte) :
  ((p + m + 1) * ts <= length d)%nat ->
  chunks ts (p + S m)
    (take (p * ts) d ++ take ts (drop (p * ts) d)
     ++ take (m * ts) (drop (p * ts) d) ++ drop ((p + m + 1) * ts) d)
  = take p (chunks ts (p + m) d) ++ take ts (drop (p * ts) d)
    :: drop p (chunks ts (p + m) d).
Proof.
  intros Hlen.
  rewrite chunks_splice by (rewrite length_take, ?length_drop; lia).
  rewrite take_chunks by lia. rewrite chunks_take_data.
  f_equal. f_equal. rewrite drop_chunks.
  rewrite chunks_prefix by (rewrite length_take, length_drop; nia).
  apply chunks_take_data.
Qed.

Lemma chunks_split ts p m (d : list byte) :
  chunks ts (p + S m) d
  = chunks ts p (take (p * ts) d)
    ++ take ts (drop (p * ts) d) :: chunks ts m (drop (p * ts + ts) d).
Proof.
  transitivity (take p (chunks ts (p + S m) d) ++ drop p (chunks ts (p + S m) d)).
  { symmetry. apply take_drop. }
  rewrite take_chunks by lia. rewrite drop_chunks, chunks_take_data.
  simpl. by rewrite drop_drop.
Qed.

(** Elements after a slot has been overwritten. *)
Lemma chunks_write ts p m (d v : list byte) :
  length v = ts -> ((p + m + 1) * ts <= length d)%nat ->
  chunks ts (p + S m) (take (p * ts) d ++ v ++ drop (p * ts + ts) d)
  = <[p := v]> (chunks ts (p + S m) d).
Proof.
  intros Hv Hlen.
  rewrite chunks_splice by (rewrite ?length_take; lia).
  rewrite chunks_split.
  assert (length (chunks ts p (take (p * ts) d)) = p) as Hp
    by apply length_chunks.
  rewrite (insert_app_r_alt _ _ p) by lia.
  rewrite Hp, Nat.sub_diag. done.
Qed.

(** Elements after the trailing block has been moved [len] slots left. *)
Lemma chunks_erase ts p len m (d : list byte) :
  ((p + len + m) * ts <= length d)%nat ->
  chunks ts (p + m)
    (take (p * ts) d ++ take (m * ts) (drop ((p + len) * ts) d)
     ++ drop ((p + m) * ts) d)
  = take p (chunks ts (p + len + m) d) ++ drop (p + len) (chunks ts (p + len + m) d).
Proof.
  intros Hlen.
  rewrite chunks_app by (rewrite length_take; lia).
  rewrite take_chunks by lia. rewrite chunks_take_data. f_equal.
  rewrite drop_chunks.
  rewrite chunks_prefix by (rewrite length_take, length_drop; nia).
  apply chunks_take_data.
Qed.

(** ** The allocator *)

Section Specs.
Variable al : allocator.

Lemma fresh_unused (hp : heap) : hp !! fresh (dom hp) = None.
Proof. apply not_elem_of_dom, is_fresh. Qed.

Lemma length_fresh_bytes from n : length (fresh_bytes al from n) = n.
Proof. unfold fresh_bytes. by rewrite length_map, length_seq. Qed.

Lemma resize_grow (d : list byte) n :
  (length d <= n)%nat ->
  resize al d n = d ++ fresh_bytes al (length d) (n - length d).
Proof. intros H. unfold resize. by rewrite take_ge. Qed.

Lemma length_resize (d : list byte) n : length (resize al d n) = n.
Proof.
  unfold resize. rewrite length_app, length_take, length_fresh_bytes. lia.
Qed.

Lemma malloc_spec (hp : heap) n :
  sizeof_set_header <= n ->
  malloc al n hp
  = Some (fresh (dom hp),
          <[fresh (dom hp) :=
              mk_header (size_wrap (junk_word al)) (size_wrap (junk_word al))
                (fresh_bytes al 0 (Z.to_nat (n - sizeof_set_header)))]> hp).
Proof.
  intros H. unfold malloc.
  by replace (n <? sizeof_set_header) with false by (symmetry; apply Z.ltb_ge; lia).
Qed.

Lemma realloc_spec (hp : heap) h blk n :
  hp !! h = Some blk -> sizeof_set_header <= n ->
  exists h' hp',
    realloc al h n hp = Some (h', hp') /\
    updated hp h h'
      (mk_header (size blk) (capacity blk)
         (resize al (data blk) (Z.to_nat (n - sizeof_set_header)))) hp'.
Proof.
  intros Hh Hn. unfold realloc. rewrite Hh.
  replace (n <? sizeof_set_header) with false by (symmetry; apply Z.ltb_ge; lia).
  destruct (moves al h n).
  - eexists _, _. split; [done|]. split; [done|]. right. apply fresh_unused.
  - eexists _, _. split; [done|]. apply updated_refl.
Qed.

(** ** Growth *)

Lemma set_realloc_spec (hp : heap) h blk ts :
  hp !! h = Some blk -> 0 < ts -> 0 <= capacity blk ->
  alloc_ok ts (Z.max 1 (capacity blk * 2)) ->
  exists h' hp',
    set_realloc al h ts hp = Some (h', hp') /\
    updated hp h h'
      (mk_header (size blk) (Z.max 1 (capacity blk * 2))
         (resize al (data blk) (Z.to_nat (Z.max 1 (capacity blk * 2) * ts)))) hp'.
Proof.
  intros Hh Hts Hc Hok. unfold alloc_ok, sizeof_set_header in Hok.
  unfold set_realloc, bind. rewrite (load_Some _ _ _ Hh).
  set (nc := Z.max 1 (capacity blk * 2)) in *.
  assert ((if capacity blk =? 0 then 1 else size_wrap (capacity blk * 2)) = nc) as ->.
  { destruct (Z.eqb_spec (capacity blk) 0) as [He|Hne]; [subst nc; lia|].
    rewrite size_wrap_small by nia. subst nc. lia. }
  assert (1 <= nc) as Hnc by (subst nc; lia).
  rewrite (size_wrap_small (nc * ts)) by nia.
  rewrite size_wrap_small by (unfold sizeof_set_header; nia).
  destruct (realloc_spec hp h blk (sizeof_set_header + nc * ts) Hh)
    as (h' & hp' & -> & Hup); [nia|].
  replace (sizeof_set_header + nc * ts - sizeof_set_header) with (nc * ts) in Hup by lia.
  rewrite (set_field_capacity_Some _ _ _ _ (updated_lookup _ _ _ _ _ Hup)).
  eexists _, _. split; [done|]. simpl.
  eapply updated_insert, Hup.
Qed.

Lemma set_has_space_spec (hp : heap) h blk :
  hp !! h = Some blk -> 0 <= size blk <= capacity blk -> capacity blk <= SIZE_MAX ->
  set_has_space h hp = Some (negb (capacity blk - size blk =? 0), hp).
Proof.
  intros Hh Hs Hc. unfold set_has_space, bind. rewrite (load_Some _ _ _ Hh).
  unfold ret. rewrite size_wrap_small by lia. do 2 f_equal.
  destruct (Z.eqb_spec (capacity blk - size blk) 0); simpl; lia.
Qed.

Lemma wf_capacity_max ts blk : wf ts blk -> capacity blk <= SIZE_MAX.
Proof. intros [? ? ? Ha]. unfold sizeof_set_header in Ha. nia. Qed.

Lemma grow_if_needed_spec (hp : heap) h blk ts :
  hp !! h = Some blk -> wf ts blk ->
  (size blk = capacity blk -> alloc_ok ts (Z.max 1 (capacity blk * 2))) ->
  exists h' hp' blk',
    grow_if_needed al h ts hp = Some (h', hp') /\
    updated hp h h' blk' hp' /\
    size blk' = size blk /\
    capacity blk' = (if capacity blk - size blk =? 0
                     then Z.max 1 (capacity blk * 2) else capacity blk) /\
    (exists ext, data blk' = data blk ++ ext) /\
    wf ts blk' /\ size blk < capacity blk'.
Proof.
  intros Hh Hwf Hok. pose proof (wf_capacity_max _ _ Hwf) as Hmax.
  destruct Hwf as [Hts Hs Hd Ha].
  unfold grow_if_needed, bind.
  rewrite (set_has_space_spec _ _ _ Hh Hs Hmax), negb_involutive.
  destruct (Z.eqb_spec (capacity blk - size blk) 0) as [Hfull|Hroom].
  - assert (size blk = capacity blk) as Heq by lia. specialize (Hok Heq).
    destruct (set_realloc_spec hp h blk ts Hh Hts) as (h' & hp' & -> & Hup);
      [lia|done|].
    eexists _, _, _. split; [done|]. split; [exact Hup|]. simpl.
    unfold alloc_ok in Hok.
    set (nc := Z.max 1 (capacity blk * 2)) in *.
    assert (length (data blk) <= Z.to_nat (nc * ts))%nat by nia.
    split; [done|]. split; [done|]. split.
    { rewrite resize_grow by done. eauto. }
    split; [|lia]. split; simpl; [done|lia| |done].
    rewrite length_resize. nia.
  - exists h, hp, blk. split; [done|]. split; [by apply updated_id|].
    split; [done|]. split; [done|]. split; [by exists []; rewrite app_nil_r|].
    split; [by split|lia].
Qed.

(** Both slot-making functions start with that guard. *)
Lemma _set_add_dst_unfold st ts (hp : heap) :
  _set_add_dst al st ts hp
  = (h <- grow_if_needed al (set_get_header st) ts ;;
     blk <- load h ;;
     set_field_size h (size_wrap (size blk + 1)) ;;;
     ret (h, size_wrap (ts * size blk))) hp.
Proof.
  unfold _set_add_dst, grow_if_needed, bind.
  by destruct (set_has_space _ hp) as [[? ?]|].
Qed.

Lemma _set_insert_dst_unfold st ts pos (hp : heap) :
  _set_insert_dst al st ts pos hp
  = (blk0 <- load (set_get_header st) ;;
     h <- grow_if_needed al (set_get_header st) ts ;;
     blk <- load h ;;
     memmove_data h (size_wrap (size_wrap (pos + 1) * ts))
                    (size_wrap (pos * ts))
                    (size_wrap (size_wrap (size blk - pos) * ts)) ;;;
     set_field_size h (size_wrap (size blk0 + 1)) ;;;
     ret (h, size_wrap (pos * ts))) hp.
Proof.
  unfold _set_insert_dst, grow_if_needed, bind.
  destruct (load _ hp) as [[? hp1]|]; [|done].
  by destruct (set_has_space _ hp1) as [[? ?]|].
Qed.
End Specs.

(** ** The operations, block by block *)

Lemma elements_prefix ts blk blk' ext :
  wf ts blk -> data blk' = data blk ++ ext -> size blk <= size blk' ->
  take (Z.to_nat (size blk)) (elements ts blk') = elements ts blk.
Proof.
  intros [Hts Hs Hd _] Hext Hle. unfold elements. rewrite Hext.
  rewrite take_chunks by lia. apply chunks_prefix. nia.
Qed.

Lemma insert_last {A} (l : list A) n v :
  length l = S n -> <[n := v]> l = take n l ++ [v].
Proof.
  intros Hl. rewrite <- (take_drop n l) at 1.
  assert (length (take n l) = n) as Hn by (rewrite length_take; lia).
  rewrite (insert_app_r_alt _ _ n) by lia. rewrite Hn, Nat.sub_diag.
  destruct (drop n l) as [|x [|y r]] eqn:Hdrop; simpl.
  - apply (f_equal length) in Hdrop. rewrite length_drop in Hdrop. simpl in Hdrop. lia.
  - done.
  - apply (f_equal length) in Hdrop. rewrite length_drop in Hdrop. simpl in Hdrop. lia.
Qed.

Section OpSpecs.
Variable al : allocator.

Lemma _set_add_dst_spec (hp : heap) st blk ts :
  hp !! st = Some blk -> wf ts blk ->
  (size blk = capacity blk -> alloc_ok ts (Z.max 1 (capacity blk * 2))) ->
  exists st' hp' blk',
    _set_add_dst al st ts hp = Some ((st', size blk * ts), hp') /\
    updated hp st st' blk' hp' /\
    size blk' = size blk + 1 /\
    capacity blk' = (if capacity blk - size blk =? 0
                     then Z.max 1 (capacity blk * 2) else capacity blk) /\
    (exists ext, data blk' = data blk ++ ext) /\
    wf ts blk'.
Proof.
  intros Hst Hwf Hok.
  destruct (grow_if_needed_spec al hp st blk ts Hst Hwf Hok)
    as (h & hp1 & blk1 & Hrun & Hup & Hs1 & Hc1 & Hd1 & Hwf1 & Hroom).
  rewrite _set_add_dst_unfold. unfold bind, set_get_header. rewrite Hrun.
  pose proof (updated_lookup _ _ _ _ _ Hup) as Hh.
  rewrite (load_Some _ _ _ Hh), (set_field_size_Some _ _ _ _ Hh).
  pose proof (wf_capacity_max _ _ Hwf1) as Hmax.
  destruct Hwf as [Hts Hs Hd Ha]. destruct Hwf1 as [_ Hs1' Hd1' Ha1].
  unfold sizeof_set_header in *.
  rewrite Hs1, (size_wrap_small (size blk + 1)) by lia.
  rewrite size_wrap_small by nia.
  eexists h, _, _. split; [by rewrite (Z.mul_comm ts)|].
  split; [eapply updated_insert, Hup|]. simpl.
  split; [done|]. split; [done|]. split; [done|].
  split; simpl; [done|lia|done|done].
Qed.

Lemma store_at_spec (hp : heap) st blk ts i v :
  hp !! st = Some blk -> wf ts blk -> 0 <= i < size blk ->
  Z.of_nat (length v) = ts ->
  exists blk',
    store_at st (i * ts) v hp = Some (tt, <[st := blk']> hp) /\
    size blk' = size blk /\ capacity blk' = capacity blk /\
    elements ts blk' = <[Z.to_nat i := v]> (elements ts blk) /\
    wf ts blk'.
Proof.
  intros Hst [Hts Hs Hd Ha] Hi Hv.
  destruct (Z_is_nat i) as [p ->]; [lia|].
  destruct (Z_is_nat (size blk - Z.of_nat p - 1)) as [m Hm]; [lia|].
  assert (size blk = Z.of_nat (p + S m)) as Hsz by lia.
  unfold store_at, bind. rewrite (load_Some _ _ _ Hst).
  replace (Z.of_nat p * ts) with (Z.of_nat (p * length v)) by lia.
  rewrite write_bytes_nat by nia.
  rewrite (store_Some _ _ _ _ Hst).
  eexists. split; [done|]. simpl. split; [done|]. split; [done|].
  unfold elements; simpl. rewrite Hsz, <- Hv, !Nat2Z.id.
  split; [apply chunks_write; [done|nia]|].
  split; simpl; [lia|lia| |unfold sizeof_set_header in *; lia].
  rewrite !length_app, length_take, length_drop. nia.
Qed.

Lemma _set_insert_dst_spec (hp : heap) st blk ts pos :
  hp !! st = Some blk -> wf ts blk -> 0 <= pos <= size blk ->
  (size blk = capacity blk -> alloc_ok ts (Z.max 1 (capacity blk * 2))) ->
  exists st' hp' blk' x,
    _set_insert_dst al st ts pos hp = Some ((st', pos * ts), hp') /\
    updated hp st st' blk' hp' /\
    size blk' = size blk + 1 /\
    capacity blk' = (if capacity blk - size blk =? 0
                     then Z.max 1 (capacity blk * 2) else capacity blk) /\
    elements ts blk'
    = take (Z.to_nat pos) (elements ts blk) ++ x :: drop (Z.to_nat pos) (elements ts blk) /\
    wf ts blk'.
Proof.
  intros Hst Hwf Hpos Hok.
  destruct (grow_if_needed_spec al hp st blk ts Hst Hwf Hok)
    as (h & hp1 & blk1 & Hrun & Hup & Hs1 & Hc1 & [ext Hd1] & Hwf1 & Hroom).
  rewrite _set_insert_dst_unfold. unfold bind, set_get_header.
  rewrite (load_Some _ _ _ Hst), Hrun.
  pose proof (updated_lookup _ _ _ _ _ Hup) as Hh.
  rewrite (load_Some _ _ _ Hh).
  pose proof (wf_capacity_max _ _ Hwf1) as Hmax.
  destruct Hwf as [Hts Hs Hd Ha]. destruct Hwf1 as [_ Hs1' Hd1' Ha1].
  unfold sizeof_set_header in *.
  destruct (Z_is_nat pos) as [p ->]; [lia|].
  destruct (Z_is_nat (size blk - Z.of_nat p)) as [m Hm]; [lia|].
  destruct (Z_is_nat ts) as [t ->]; [lia|].
  assert (size blk = Z.of_nat (p + m)) as Hsz by lia.
  assert ((p + m + 1) * t <= length (data blk1))%nat as Hlen by nia.
  rewrite (size_wrap_small (Z.of_nat p + 1)) by lia.
  rewrite Hs1, Hm.
  rewrite (size_wrap_small (Z.of_nat m)) by lia.
  rewrite !size_wrap_small by nia.
  unfold memmove_data, bind. rewrite (load_Some _ _ _ Hh).
  replace ((Z.of_nat p + 1) * Z.of_nat t) with (Z.of_nat ((p + 1) * t)) by lia.
  replace (Z.of_nat p * Z.of_nat t) with (Z.of_nat (p * t)) by lia.
  replace (Z.of_nat m * Z.of_nat t) with (Z.of_nat (m * t)) by lia.
  rewrite memmove_insert_nat by done.
  rewrite (store_Some _ _ _ _ Hh).
  erewrite set_field_size_Some by apply lookup_insert_eq.
  rewrite insert_insert_eq.
  eexists h, _, _, _. split; [done|].
  split; [eapply updated_insert, Hup|]. simpl.
  split; [done|]. split; [done|]. split.
  - unfold elements; simpl.
    replace (Z.to_nat (size blk + 1)) with (p + S m)%nat by lia.
    rewrite Hsz, !Nat2Z.id.
    rewrite chunks_insert by done.
    rewrite Hd1, chunks_prefix by nia. done.
  - split; simpl; [done|lia| |done].
    rewrite <- Hd1'. f_equal.
    rewrite !length_app, !length_take, !length_drop. nia.
Qed.
End OpSpecs.

Section OpSpecs2.
Variable al : allocator.

Lemma _set_erase_spec (hp : heap) st blk ts pos len :
  hp !! st = Some blk -> wf ts blk ->
  0 <= pos -> 0 <= len -> pos + len <= size blk ->
  exists blk',
    _set_erase st ts pos len hp = Some (tt, <[st := blk']> hp) /\
    size blk' = size blk - len /\
    capacity blk' = capacity blk /\
    elements ts blk'
    = take (Z.to_nat pos) (elements ts blk)
      ++ drop (Z.to_nat (pos + len)) (elements ts blk) /\
    wf ts blk'.
Proof.
  intros Hst Hwf Hpos Hlen Hend.
  pose proof (wf_capacity_max _ _ Hwf) as Hmax.
  destruct Hwf as [Hts Hs Hd Ha]. unfold sizeof_set_header in *.
  destruct (Z_is_nat pos) as [p ->]; [lia|].
  destruct (Z_is_nat len) as [l ->]; [lia|].
  destruct (Z_is_nat (size blk - Z.of_nat p - Z.of_nat l)) as [m Hm]; [lia|].
  destruct (Z_is_nat ts) as [t ->]; [lia|].
  assert (size blk = Z.of_nat (p + l + m)) as Hsz by lia.
  assert ((p + l + m) * t <= length (data blk))%nat as Hbytes by nia.
  unfold _set_erase, bind, set_get_header. rewrite (load_Some _ _ _ Hst).
  rewrite (size_wrap_small (Z.of_nat p + Z.of_nat l)) by lia.
  rewrite (size_wrap_small (size blk - Z.of_nat p)) by lia.
  rewrite Hm, (size_wrap_small (Z.of_nat m)) by lia.
  rewrite !size_wrap_small by nia.
  unfold memmove_data, bind. rewrite (load_Some _ _ _ Hst).
  replace (Z.of_nat p * Z.of_nat t) with (Z.of_nat (p * t)) by lia.
  replace ((Z.of_nat p + Z.of_nat l) * Z.of_nat t) with (Z.of_nat ((p + l) * t)) by lia.
  replace (Z.of_nat m * Z.of_nat t) with (Z.of_nat (m * t)) by lia.
  rewrite memmove_erase_nat by done.
  rewrite (store_Some _ _ _ _ Hst).
  erewrite load_Some by apply lookup_insert_eq.
  erewrite set_field_size_Some by apply lookup_insert_eq.
  rewrite insert_insert_eq. simpl.
  rewrite size_wrap_small by lia.
  eexists. split; [done|]. simpl. split; [done|]. split; [done|]. split.
  - unfold elements; simpl.
    replace (Z.to_nat (size blk - Z.of_nat l)) with (p + m)%nat by lia.
    rewrite Hsz, <- Nat2Z.inj_add, !Nat2Z.id.
    by apply chunks_erase.
  - split; simpl; [lia|lia| |unfold sizeof_set_header; lia].
    rewrite <- Hd. f_equal.
    rewrite !length_app, !length_take, !length_drop. nia.
Qed.

Lemma set_pop_spec (hp : heap) st blk :
  hp !! st = Some blk -> 0 < size blk <= SIZE_MAX ->
  set_pop st hp
  = Some (tt, <[st := mk_header (size blk - 1) (capacity blk) (data blk)]> hp).
Proof.
  intros Hst Hs. unfold set_pop, bind, set_get_header.
  rewrite (load_Some _ _ _ Hst), (set_field_size_Some _ _ _ _ Hst).
  by rewrite size_wrap_small by lia.
Qed.

Lemma _set_reserve_enough (hp : heap) st blk ts k :
  hp !! st = Some blk -> k <= capacity blk ->
  _set_reserve al st ts k hp = Some (st, hp).
Proof.
  intros Hst Hk. unfold _set_reserve, bind, set_get_header.
  rewrite (load_Some _ _ _ Hst).
  by replace (k <=? capacity blk) with true by (symmetry; apply Z.leb_le; lia).
Qed.

Lemma _set_reserve_grows (hp : heap) st blk ts k :
  hp !! st = Some blk -> wf ts blk -> capacity blk < k -> alloc_ok ts k ->
  exists st' hp',
    _set_reserve al st ts k hp = Some (st', hp') /\
    updated hp st st'
      (mk_header (size blk) k
         (data blk ++ fresh_bytes al (length (data blk))
                        (Z.to_nat (k * ts) - length (data blk)))) hp'.
Proof.
  intros Hst [Hts Hs Hd Ha] Hk Hok. unfold alloc_ok, sizeof_set_header in *.
  unfold _set_reserve, bind, set_get_header.
  rewrite (load_Some _ _ _ Hst).
  replace (k <=? capacity blk) with false by (symmetry; apply Z.leb_gt; lia).
  rewrite (size_wrap_small (k * ts)) by nia.
  rewrite size_wrap_small by (unfold sizeof_set_header; nia).
  destruct (realloc_spec al hp st blk (sizeof_set_header + k * ts) Hst)
    as (h' & hp' & -> & Hup); [nia|].
  replace (sizeof_set_header + k * ts - sizeof_set_header) with (k * ts) in Hup by lia.
  rewrite resize_grow in Hup by nia.
  rewrite (set_field_capacity_Some _ _ _ _ (updated_lookup _ _ _ _ _ Hup)).
  eexists _, _. split; [done|]. simpl. eapply updated_insert, Hup.
Qed.

Lemma _set_copy_spec (hp : heap) st blk ts :
  hp !! st = Some blk -> wf ts blk ->
  _set_copy al st ts hp
  = Some (fresh (dom hp),
          <[fresh (dom hp) :=
              mk_header (size blk) (size blk)
                (take (Z.to_nat (size blk * ts)) (data blk))]> hp).
Proof.
  intros Hst [Hts Hs Hd Ha]. unfold sizeof_set_header in *.
  pose proof (fresh_unused hp) as Hfresh.
  assert (fresh (dom hp) ≠ st) as Hne by congruence.
  unfold _set_copy, bind, set_get_header. rewrite (load_Some _ _ _ Hst).
  rewrite (size_wrap_small (size blk * ts)) by nia.
  rewrite size_wrap_small by (unfold sizeof_set_header; nia).
  rewrite malloc_spec by nia.
  unfold memcpy_block, bind.
  erewrite load_Some by (rewrite lookup_insert_ne by done; exact Hst).
  erewrite load_Some by apply lookup_insert_eq.
  replace (sizeof_set_header + size blk * ts - sizeof_set_header)
    with (size blk * ts) by lia.
  cbn [data]. rewrite length_fresh_bytes.
  replace (sizeof_set_header + size blk * ts <? sizeof_set_header) with false
    by (symmetry; apply Z.ltb_ge; nia).
  replace (Z.of_nat (length (data blk)) <? size blk * ts) with false
    by (symmetry; apply Z.ltb_ge; nia).
  replace (Z.of_nat (Z.to_nat (size blk * ts)) <? size blk * ts) with false
    by (symmetry; apply Z.ltb_ge; nia).
  change (false || false || false) with false. cbv iota.
  erewrite store_Some by apply lookup_insert_eq.
  rewrite insert_insert_eq.
  erewrite load_Some by apply lookup_insert_eq.
  erewrite set_field_capacity_Some by apply lookup_insert_eq.
  rewrite insert_insert_eq. simpl.
  rewrite drop_ge by (rewrite length_fresh_bytes; lia).
  by rewrite app_nil_r.
Qed.
End OpSpecs2.

(** ** Frame: an operation on one container leaves the others alone *)

Lemma others_kept_refl (hp : heap) h : others_kept hp h hp h.
Proof. intros q b Hq Hb. done. Qed.

Lemma others_kept_trans (hp hp1 hp2 : heap) h h1 h2 :
  others_kept hp h hp1 h1 -> others_kept hp1 h1 hp2 h2 -> others_kept hp h hp2 h2.
Proof.
  intros H1 H2 q b Hq Hb.
  destruct (H1 q b Hq Hb) as [Hb1 Hq1]. by apply H2.
Qed.

Lemma others_kept_insert (hp : heap) h blk : others_kept hp h (<[h := blk]> hp) h.
Proof. intros q b Hq Hb. by rewrite lookup_insert_ne. Qed.

Lemma updated_others_kept (hp hp' : heap) h h' blk' :
  updated hp h h' blk' hp' -> others_kept hp h hp' h'.
Proof. intros Hup q b Hq Hb. eapply updated_frame; eauto. Qed.

(** Splits a successful [bind] into its two successful halves. *)
Lemma bind_Some {A B} (m : M A) (k : A -> M B) (hp : heap) r (hp' : heap) :
  bind m k hp = Some (r, hp') ->
  exists a hp1, m hp = Some (a, hp1) /\ k a hp1 = Some (r, hp').
Proof.
  unfold bind. destruct (m hp) as [[a hp1]|]; [|done]. eauto.
Qed.

Ltac bind_inv H :=
  let a := fresh "a" in
  let hp1 := fresh "hp" in
  let H1 := fresh "Hrun" in
  apply bind_Some in H; destruct H as (a & hp1 & H1 & H).

Lemma ret_Some {A} (a r : A) (hp hp' : heap) :
  ret a hp = Some (r, hp') -> r = a /\ hp' = hp.
Proof. unfold ret. by intros [= <- <-]. Qed.

Lemma load_inv (hp hp' : heap) h blk :
  load h hp = Some (blk, hp') -> hp' = hp /\ hp !! h = Some blk.
Proof. unfold load. destruct (hp !! h); [|done]. by intros [= <- <-]. Qed.

Lemma store_inv (hp hp' : heap) h blk u :
  store h blk hp = Some (u, hp') -> hp' = <[h := blk]> hp.
Proof. unfold store. destruct (hp !! h); [|done]. by intros [= <- <-]. Qed.

Lemma set_field_size_kept (hp hp' : heap) h v u :
  set_field_size h v hp = Some (u, hp') -> others_kept hp h hp' h.
Proof.
  unfold set_field_size. intros H. bind_inv H.
  apply load_inv in Hrun as [-> _]. apply store_inv in H as ->.
  apply others_kept_insert.
Qed.

Lemma set_field_capacity_kept (hp hp' : heap) h v u :
  set_field_capacity h v hp = Some (u, hp') -> others_kept hp h hp' h.
Proof.
  unfold set_field_capacity. intros H. bind_inv H.
  apply load_inv in Hrun as [-> _]. apply store_inv in H as ->.
  apply others_kept_insert.
Qed.

Lemma memmove_data_kept (hp hp' : heap) h dst src n u :
  memmove_data h dst src n hp = Some (u, hp') -> others_kept hp h hp' h.
Proof.
  unfold memmove_data. intros H. bind_inv H.
  apply load_inv in Hrun as [-> _].
  destruct (memmove _ _ _ _); [|done]. apply store_inv in H as ->.
  apply others_kept_insert.
Qed.

Lemma store_at_kept (hp hp' : heap) h off v u :
  store_at h off v hp = Some (u, hp') -> others_kept hp h hp' h.
Proof.
  unfold store_at. intros H. bind_inv H.
  apply load_inv in Hrun as [-> _].
  destruct (write_bytes _ _ _); [|done]. apply store_inv in H as ->.
  apply others_kept_insert.
Qed.

Section Frame.
Variable al : allocator.

Lemma realloc_kept (hp hp' : heap) h n h' :
  realloc al h n hp = Some (h', hp') -> others_kept hp h hp' h'.
Proof.
  intros H. destruct (hp !! h) as [blk|] eqn:Hh.
  - destruct (Z.ltb_spec n sizeof_set_header) as [Hlt|Hge].
    + unfold realloc in H. rewrite Hh in H.
      by replace (n <? sizeof_set_header) with true in H
        by (symmetry; apply Z.ltb_lt; lia).
    + destruct (realloc_spec al hp h blk n Hh Hge) as (h1 & hp1 & Hrun & Hup).
      rewrite Hrun in H. injection H as <- <-.
      eapply updated_others_kept, Hup.
  - unfold realloc in H. by rewrite Hh in H.
Qed.

Lemma set_realloc_kept (hp hp' : heap) h ts h' :
  set_realloc al h ts hp = Some (h', hp') -> others_kept hp h hp' h'.
Proof.
  unfold set_realloc. intros H. bind_inv H. apply load_inv in Hrun as [-> _].
  bind_inv H. apply realloc_kept in Hrun.
  bind_inv H. apply set_field_capacity_kept in Hrun0.
  apply ret_Some in H as [-> ->].
  eapply others_kept_trans; eauto.
Qed.

Lemma set_has_space_inv (hp hp' : heap) h b :
  set_has_space h hp = Some (b, hp') -> hp' = hp.
Proof.
  unfold set_has_space. intros H. bind_inv H. apply load_inv in Hrun as [-> _].
  by apply ret_Some in H as [_ ->].
Qed.

Lemma grow_if_needed_kept (hp hp' : heap) h ts h' :
  grow_if_needed al h ts hp = Some (h', hp') -> others_kept hp h hp' h'.
Proof.
  unfold grow_if_needed. intros H. bind_inv H.
  apply set_has_space_inv in Hrun as ->.
  destruct (negb a).
  - by apply set_realloc_kept in H.
  - apply ret_Some in H as [-> ->]. apply others_kept_refl.
Qed.

Lemma _set_add_dst_kept (hp hp' : heap) st ts r :
  _set_add_dst al st ts hp = Some (r, hp') -> others_kept hp st hp' (fst r).
Proof.
  rewrite _set_add_dst_unfold. unfold set_get_header. intros H.
  bind_inv H. apply grow_if_needed_kept in Hrun.
  bind_inv H. apply load_inv in Hrun0 as [-> _].
  bind_inv H. apply set_field_size_kept in Hrun0.
  apply ret_Some in H as [-> ->]. simpl.
  eapply others_kept_trans; eauto.
Qed.

Lemma _set_insert_dst_kept (hp hp' : heap) st ts pos r :
  _set_insert_dst al st ts pos hp = Some (r, hp') -> others_kept hp st hp' (fst r).
Proof.
  rewrite _set_insert_dst_unfold. unfold set_get_header. intros H.
  bind_inv H. apply load_inv in Hrun as [-> _].
  bind_inv H. apply grow_if_needed_kept in Hrun.
  bind_inv H. apply load_inv in Hrun0 as [-> _].
  bind_inv H. apply memmove_data_kept in Hrun0.
  bind_inv H. apply set_field_size_kept in Hrun1.
  apply ret_Some in H as [-> ->]. simpl.
  eapply others_kept_trans; [exact Hrun|].
  eapply others_kept_trans; eauto.
Qed.

Lemma _set_erase_kept (hp hp' : heap) st ts pos len u :
  _set_erase st ts pos len hp = Some (u, hp') -> others_kept hp st hp' st.
Proof.
  unfold _set_erase, set_get_header. intros H.
  bind_inv H. apply load_inv in Hrun as [-> _].
  bind_inv H. apply memmove_data_kept in Hrun.
  bind_inv H. apply load_inv in Hrun0 as [-> _].
  apply set_field_size_kept in H.
  eapply others_kept_trans; eauto.
Qed.

Lemma set_pop_kept (hp hp' : heap) st u :
  set_pop st hp = Some (u, hp') -> others_kept hp st hp' st.
Proof.
  unfold set_pop, set_get_header. intros H.
  bind_inv H. apply load_inv in Hrun as [-> _].
  by apply set_field_size_kept in H.
Qed.

Lemma _set_reserve_kept (hp hp' : heap) st ts k st' :
  _set_reserve al st ts k hp = Some (st', hp') -> others_kept hp st hp' st'.
Proof.
  unfold _set_reserve, set_get_header. intros H.
  bind_inv H. apply load_inv in Hrun as [-> _].
  destruct (k <=? capacity a).
  - apply ret_Some in H as [-> ->]. apply others_kept_refl.
  - bind_inv H. apply realloc_kept in Hrun.
    bind_inv H. apply set_field_capacity_kept in Hrun0.
    apply ret_Some in H as [-> ->].
    eapply others_kept_trans; eauto.
Qed.

Lemma mutate_kept ts m (hp hp' : heap) st st' :
  mutate al ts m st hp = Some (st', hp') -> others_kept hp st hp' st'.
Proof.
  destruct m; simpl; intros H.
  - bind_inv H. apply _set_add_dst_kept in Hrun.
    by apply ret_Some in H as [-> ->].
  - bind_inv H. apply _set_insert_dst_kept in Hrun.
    by apply ret_Some in H as [-> ->].
  - bind_inv H. apply _set_erase_kept in Hrun.
    by apply ret_Some in H as [-> ->].
  - bind_inv H. apply _set_erase_kept in Hrun.
    by apply ret_Some in H as [-> ->].
  - bind_inv H. apply set_pop_kept in Hrun.
    by apply ret_Some in H as [-> ->].
  - by apply _set_reserve_kept in H.
  - bind_inv H. apply store_at_kept in Hrun.
    by apply ret_Some in H as [-> ->].
Qed.

Lemma mutate_all_kept ts ms (hp hp' : heap) st st' :
  mutate_all al ts ms st hp = Some (st', hp') -> others_kept hp st hp' st'.
Proof.
  revert hp st. induction ms as [|m ms IH]; simpl; intros hp st H.
  - apply ret_Some in H as [-> ->]. apply others_kept_refl.
  - bind_inv H. apply mutate_kept in Hrun. apply IH in H.
    eapply others_kept_trans; eauto.
Qed.
End Frame.

(** ** Reading elements *)

Lemma length_elements ts blk : length (elements ts blk) = Z.to_nat (size blk).
Proof. apply length_chunks. Qed.

Lemma elements_lookup ts blk i :
  0 <= ts -> 0 <= i < size blk ->
  elements ts blk !! Z.to_nat i = Some (element_at ts blk i).
Proof.
  intros Hts Hi. unfold elements, element_at.
  rewrite lookup_chunks by lia. by rewrite Z2Nat.inj_mul by lia.
Qed.

Section Splice.
Context {A : Type}.
Implicit Types l : list A.

Lemma splice_lookup_lt l p x i :
  (i < p <= length l)%nat -> (take p l ++ x :: drop p l) !! i = l !! i.
Proof.
  intros H. rewrite lookup_app_l by (rewrite length_take; lia).
  apply lookup_take_lt. lia.
Qed.

Lemma splice_lookup_eq l p x :
  (p <= length l)%nat -> (take p l ++ x :: drop p l) !! p = Some x.
Proof.
  intros H. rewrite lookup_app_r by (rewrite length_take; lia).
  rewrite length_take. by replace (p - p `min` length l)%nat with 0%nat by lia.
Qed.

Lemma splice_lookup_gt l p x i :
  (p <= i)%nat -> (p <= length l)%nat ->
  (take p l ++ x :: drop p l) !! S i = l !! i.
Proof.
  intros Hi H. rewrite lookup_app_r by (rewrite length_take; lia).
  rewrite length_take.
  replace (S i - p `min` length l)%nat with (S (i - p)) by lia.
  simpl. rewrite lookup_drop. f_equal. lia.
Qed.

Lemma cut_lookup_lt l p q i :
  (i < p <= length l)%nat -> (take p l ++ drop q l) !! i = l !! i.
Proof.
  intros H. rewrite lookup_app_l by (rewrite length_take; lia).
  apply lookup_take_lt. lia.
Qed.

Lemma cut_lookup_ge l p len i :
  (p <= i)%nat -> (p <= length l)%nat ->
  (take p l ++ drop (p + len) l) !! i = l !! (i + len)%nat.
Proof.
  intros Hi H. rewrite lookup_app_r by (rewrite length_take; lia).
  rewrite length_take, lookup_drop. f_equal. lia.
Qed.
End Splice.

(** One insertion: make the slot, write the element. *)
Lemma insert_one_spec al ts (hp : heap) st blk pos v :
  hp !! st = Some blk -> wf ts blk -> 0 <= pos <= size blk ->
  (size blk = capacity blk -> alloc_ok ts (Z.max 1 (capacity blk * 2))) ->
  Z.of_nat (length v) = ts ->
  exists st' hp1 blk1 x blk2,
    _set_insert_dst al st ts pos hp = Some ((st', pos * ts), hp1) /\
    updated hp st st' blk1 hp1 /\
    size blk1 = size blk + 1 /\
    elements ts blk1
    = take (Z.to_nat pos) (elements ts blk) ++ x :: drop (Z.to_nat pos) (elements ts blk) /\
    store_at st' (pos * ts) v hp1 = Some (tt, <[st' := blk2]> hp1) /\
    wf ts blk2 /\
    size blk2 = size blk + 1 /\
    elements ts blk2
    = take (Z.to_nat pos) (elements ts blk) ++ v :: drop (Z.to_nat pos) (elements ts blk).
Proof.
  intros Hst Hwf Hpos Hok Hv.
  destruct (_set_insert_dst_spec al hp st blk ts pos Hst Hwf Hpos Hok)
    as (st' & hp1 & blk1 & x & Hrun & Hup & Hs1 & _ & He1 & Hwf1).
  pose proof (updated_lookup _ _ _ _ _ Hup) as Hst1.
  destruct (store_at_spec hp1 st' blk1 ts pos v Hst1 Hwf1) as
    (blk2 & Hrun2 & Hs2 & _ & He2 & Hwf2); [lia|done|].
  pose proof (length_elements ts blk) as Hlen.
  exists st', hp1, blk1, x, blk2.
  split; [exact Hrun|]. split; [exact Hup|]. split; [exact Hs1|].
  split; [exact He1|]. split; [exact Hrun2|]. split; [exact Hwf2|].
  split; [lia|].
  rewrite He2, He1.
  rewrite (insert_app_r_alt _ _ (Z.to_nat pos)) by (rewrite length_take; lia).
  rewrite length_take.
  by replace (Z.to_nat pos - Z.to_nat pos `min` length (elements ts blk))%nat
    with 0%nat by lia.
Qed.

(** ** Creation *)

Lemma set_create_spec al (hp : heap) :
  set_create al hp
  = Some (fresh (dom hp), <[fresh (dom hp) := mk_header 0 0 []]> hp).
Proof.
  unfold set_create, bind. rewrite malloc_spec by lia.
  erewrite set_field_capacity_Some by apply lookup_insert_eq.
  rewrite insert_insert_eq.
  erewrite set_field_size_Some by apply lookup_insert_eq.
  by rewrite insert_insert_eq.
Qed.

Lemma wf_empty ts : 0 < ts -> wf ts (mk_header 0 0 []).
Proof. intros H. split; simpl; unfold sizeof_set_header, SIZE_MAX; lia. Qed.

Lemma alloc_ok_mono ts k k' : 0 < ts -> k <= k' -> alloc_ok ts k' -> alloc_ok ts k.
Proof. unfold alloc_ok. nia. Qed.

(** ** Appending a sequence *)

(** One append: take the slot, write the element. *)
Lemma append_one_spec al ts (hp : heap) st blk v :
  hp !! st = Some blk -> wf ts blk ->
  Z.of_nat (length v) = ts ->
  (size blk = capacity blk -> alloc_ok ts (Z.max 1 (capacity blk * 2))) ->
  exists st1 hp1 blk1 blk2,
    _set_add_dst al st ts hp = Some ((st1, size blk * ts), hp1) /\
    updated hp st st1 blk1 hp1 /\
    store_at st1 (size blk * ts) v hp1 = Some (tt, <[st1 := blk2]> hp1) /\
    wf ts blk2 /\
    size blk2 = size blk + 1 /\
    capacity blk2 = (if capacity blk - size blk =? 0
                     then Z.max 1 (capacity blk * 2) else capacity blk) /\
    elements ts blk2 = elements ts blk ++ [v].
Proof.
  intros Hst Hwf Hv Hok.
  assert (0 <= size blk) as Hs0 by (destruct Hwf; lia).
  destruct (_set_add_dst_spec al hp st blk ts Hst Hwf Hok)
    as (st1 & hp1 & blk1 & Hrun1 & Hup1 & Hs1 & Hc1 & [ext Hd1] & Hwf1).
  pose proof (updated_lookup _ _ _ _ _ Hup1) as Hst1.
  destruct (store_at_spec hp1 st1 blk1 ts (size blk) v Hst1 Hwf1)
    as (blk2 & Hrun2 & Hs2 & Hc2 & He2 & Hwf2); [lia|done|].
  exists st1, hp1, blk1, blk2. split; [done|]. split; [done|]. split; [done|].
  split; [done|]. split; [lia|]. split; [congruence|].
  rewrite He2, insert_last by (rewrite length_elements; lia).
  by rewrite (elements_prefix ts blk blk1 ext) by (done || lia).
Qed.

Lemma doubling_capacity_step s c :
  0 <= s <= c -> doubling_capacity s c ->
  doubling_capacity (s + 1) (if c - s =? 0 then Z.max 1 (c * 2) else c).
Proof.
  intros Hs [[-> ->]|(k & Hk & -> & Hc)]; right.
  - exists 0. simpl. lia.
  - destruct (Z.eqb_spec (2 ^ k - s) 0) as [Hfull|Hroom].
    + exists (k + 1). rewrite Z.pow_add_r by lia. lia.
    + exists k. lia.
Qed.

Lemma append_all_spec al ts vs : forall (hp : heap) st blk,
  hp !! st = Some blk -> wf ts blk ->
  Forall (fun v => Z.of_nat (length v) = ts) vs ->
  alloc_ok ts (2 * (size blk + Z.of_nat (length vs))) ->
  exists st' hp' blk',
    append_all al ts st vs hp
    = Some ((st', (fun i => i * ts) <$> seqZ (size blk) (Z.of_nat (length vs))), hp') /\
    updated hp st st' blk' hp' /\
    wf ts blk' /\
    size blk' = size blk + Z.of_nat (length vs) /\
    elements ts blk' = elements ts blk ++ vs /\
    (doubling_capacity (size blk) (capacity blk) ->
     doubling_capacity (size blk') (capacity blk')).
Proof.
  induction vs as [|v vs IH]; intros hp st blk Hst Hwf Hvs Hok.
  - exists st, hp, blk. simpl. split; [done|]. split; [by apply updated_id|].
    split; [done|]. split; [lia|]. by rewrite app_nil_r.
  - apply Forall_cons in Hvs as [Hv Hvs].
    assert (0 < ts /\ 0 <= size blk <= capacity blk) as [Hts Hs0] by (destruct Hwf; lia).
    simpl length in *.
    destruct (append_one_spec al ts hp st blk v Hst Hwf Hv)
      as (st1 & hp1 & blk1 & blk2 & Hrun1 & Hup1 & Hrun2 & Hwf2 & Hs2 & Hc2 & He2).
    { intros Hfull. eapply alloc_ok_mono; [done| |exact Hok]. lia. }
    destruct (IH (<[st1 := blk2]> hp1) st1 blk2) as
      (st' & hp' & blk' & Hrun3 & Hup3 & Hwf' & Hs' & He' & Hcap');
      [apply lookup_insert_eq|done|done| |].
    { eapply alloc_ok_mono; [done| |exact Hok]. lia. }
    exists st', hp', blk'. split.
    { simpl. unfold bind at 1. rewrite Hrun1. simpl fst; simpl snd.
      unfold bind at 1. rewrite Hrun2. unfold bind. rewrite Hrun3. simpl.
      rewrite (seqZ_cons (size blk)) by lia. rewrite fmap_cons.
      rewrite Hs2.
      replace (Z.pred (Z.of_nat (S (length vs)))) with (Z.of_nat (length vs)) by lia.
      by replace (Z.succ (size blk)) with (size blk + 1) by lia. }
    split.
    { eapply updated_trans; [|exact Hup3]. eapply updated_insert, Hup1. }
    split; [done|]. split; [lia|]. split.
    + rewrite He', He2. by rewrite <- (assoc_L (++)).
    + intros Hdc. apply Hcap'. rewrite Hs2, Hc2.
      by apply doubling_capacity_step.
Qed.

(** ** Growth steps in a row *)

Lemma set_capacity_Some (hp : heap) h blk :
  hp !! h = Some blk -> set_capacity h hp = Some (capacity blk, hp).
Proof.
  intros H. unfold set_capacity, bind, set_get_header.
  by rewrite (load_Some _ _ _ H).
Qed.

Lemma grow_times_spec al ts n : forall (hp : heap) h blk j,
  hp !! h = Some blk -> wf ts blk -> 0 <= j -> capacity blk = 2 ^ j ->
  alloc_ok ts (2 ^ (j + Z.of_nat n)) ->
  exists h' hp',
    grow_times al ts n h hp
    = Some ((h', (fun i => 2 ^ i) <$> seqZ (j + 1) (Z.of_nat n)), hp').
Proof.
  induction n as [|n IH]; intros hp h blk j Hh Hwf Hj Hc Hok.
  - by exists h, hp.
  - assert (0 < ts /\ 0 <= size blk <= capacity blk) as [Hts Hs] by (destruct Hwf; lia).
    assert (0 < 2 ^ j) as Hpos by (apply Z.pow_pos_nonneg; lia).
    assert (Z.max 1 (capacity blk * 2) = 2 ^ (j + 1)) as Hnc
      by (rewrite Z.pow_add_r, Hc by lia; lia).
    assert (2 ^ (j + 1) <= 2 ^ (j + Z.of_nat (S n))) as Hle
      by (apply Z.pow_le_mono_r; lia).
    destruct (set_realloc_spec al hp h blk ts Hh Hts) as (h1 & hp1 & Hrun & Hup);
      [lia|rewrite Hnc; by eapply alloc_ok_mono|].
    rewrite Hnc in Hup.
    pose proof (updated_lookup _ _ _ _ _ Hup) as Hh1.
    destruct (IH hp1 h1 _ (j + 1) Hh1) as (h' & hp' & Hrun');
      [|lia|done|by replace (j + 1 + Z.of_nat n) with (j + Z.of_nat (S n)) by lia|].
    { unfold alloc_ok in Hok. split; simpl; [done|lia| |].
      - rewrite length_resize. nia.
      - unfold alloc_ok in *. nia. }
    exists h', hp'. simpl. unfold bind at 1. rewrite Hrun.
    unfold bind at 1. rewrite (set_capacity_Some _ _ _ Hh1).
    unfold bind. rewrite Hrun'. simpl.
    rewrite (seqZ_cons (j + 1)) by lia. rewrite fmap_cons.
    replace (Z.pred (Z.of_nat (S n))) with (Z.of_nat n) by lia.
    by replace (Z.succ (j + 1)) with (j + 1 + 1) by lia.
Qed.

(** ** Object representations *)

Lemma length_le_bytes n v : length (le_bytes n v) = n.
Proof. revert v. induction n as [|n IH]; intros v; simpl; [done|]. by rewrite IH. Qed.

Lemma length_object_repr e ts v :
  0 <= ts -> Z.of_nat (length (object_repr e ts v)) = ts.
Proof.
  intros Hts. destruct e; simpl; rewrite ?length_rev, length_le_bytes; lia.
Qed.

(** ** Every mutation keeps the container well formed *)

Lemma mutate_preserves_wf al ts m (hp : heap) st blk :
  hp !! st = Some blk -> wf ts blk -> precondition ts m blk ->
  exists st' hp' blk',
    mutate al ts m st hp = Some (st', hp') /\
    updated hp st st' blk' hp' /\
    wf ts blk' /\
    capacity blk <= capacity blk'.
Proof.
  intros Hst Hwf Hpre.
  assert (0 < ts /\ 0 <= size blk <= capacity blk
          /\ Z.of_nat (length (data blk)) = capacity blk * ts
          /\ sizeof_set_header + capacity blk * ts <= SIZE_MAX)
    as (Hts & Hs & Hd & Ha) by (destruct Hwf; lia).
  pose proof (wf_capacity_max _ _ Hwf) as Hmax.
  assert (forall c, c = (if capacity blk - size blk =? 0
                         then Z.max 1 (capacity blk * 2) else capacity blk) ->
                    capacity blk <= c) as Hgrown
    by (intros c ->; destruct (capacity blk - size blk =? 0); lia).
  destruct m as [|pos|pos len|pos| |k|off v]; simpl in Hpre; simpl.
  - destruct (_set_add_dst_spec al hp st blk ts Hst Hwf Hpre)
      as (st' & hp' & blk' & Hrun & Hup & _ & Hc & _ & Hwf').
    exists st', hp', blk'. unfold bind. rewrite Hrun. auto.
  - destruct Hpre as [Hpos Hok].
    destruct (_set_insert_dst_spec al hp st blk ts pos Hst Hwf Hpos Hok)
      as (st' & hp' & blk' & x & Hrun & Hup & _ & Hc & _ & Hwf').
    exists st', hp', blk'. unfold bind. rewrite Hrun. auto.
  - destruct Hpre as (Hpos & Hlen & Hend).
    destruct (_set_erase_spec hp st blk ts pos len Hst Hwf Hpos Hlen Hend)
      as (blk' & Hrun & _ & Hc & _ & Hwf').
    eexists st, _, blk'. unfold bind. rewrite Hrun.
    split; [done|]. split; [apply updated_refl|]. split; [done|lia].
  - destruct (_set_erase_spec hp st blk ts pos 1 Hst Hwf)
      as (blk' & Hrun & _ & Hc & _ & Hwf'); [lia..|].
    eexists st, _, blk'. unfold bind, _set_remove. rewrite Hrun.
    split; [done|]. split; [apply updated_refl|]. split; [done|lia].
  - eexists st, _, _. unfold bind. rewrite (set_pop_spec _ _ _ Hst) by lia.
    split; [done|]. split; [apply updated_refl|]. simpl.
    split; [|lia]. split; simpl; [done|lia|done|done].
  - destruct (Z.le_gt_cases k (capacity blk)) as [Hk|Hk].
    + exists st, hp, blk. rewrite (_set_reserve_enough al _ _ _ _ _ Hst Hk).
      split; [done|]. split; [by apply updated_id|]. split; [done|lia].
    + specialize (Hpre Hk).
      destruct (_set_reserve_grows al hp st blk ts k Hst Hwf Hk Hpre)
        as (st' & hp' & Hrun & Hup).
      eexists st', hp', _. split; [exact Hrun|]. split; [exact Hup|]. simpl.
      split; [|lia].
      unfold alloc_ok in Hpre. split; simpl; [done|lia| |done].
      rewrite length_app, length_fresh_bytes. nia.
  - destruct Hpre as [Hoff Hend].
    destruct (Z_is_nat off Hoff) as [o ->].
    unfold bind, store_at, bind. rewrite (load_Some _ _ _ Hst).
    rewrite write_bytes_nat by lia. rewrite (store_Some _ _ _ _ Hst).
    eexists st, _, _. split; [done|]. split; [apply updated_refl|]. simpl.
    split; [|lia]. split; simpl; [done|done| |done].
    rewrite !length_app, length_take, length_drop. lia.
Qed.

(** ** The sample containers are well formed *)

Lemma demo_block_wf : wf 1 demo_block.
Proof. split; simpl; unfold sizeof_set_header, SIZE_MAX; lia. Qed.

Lemma demo_alloc_ok k : 0 <= k <= 1000 -> alloc_ok 1 k.
Proof. unfold alloc_ok, sizeof_set_header, SIZE_MAX. lia. Qed.

(** ** C1: the duplicate-free add *)

Lemma store_at_inv (hp hp' : heap) h off v u :
  store_at h off v hp = Some (u, hp') ->
  exists blk d', hp !! h = Some blk /\
    hp' = <[h := mk_header (size blk) (capacity blk) d']> hp.
Proof.
  unfold store_at. intros H. bind_inv H.
  apply load_inv in Hrun as [-> Hh].
  destruct (write_bytes _ _ _) as [d'|]; [|done].
  apply store_inv in H as ->. eauto.
Qed.

(** C1 (the code departs from the claim).  [set_add] and [set_insert] hand
    [set_contains] the handle and [(unsigned char)value], the low byte of
    the candidate, and nothing else; [set_contains] itself is declared and
    nowhere defined.  So whatever body is linked in, two candidates with the
    same low byte are told apart by nothing: on one and the same container
    [set_add] cannot both leave it alone for [v1] (as for a value that is
    present) and append for [v2] (as for a value that is absent, size
    growing by 1), and neither can [set_insert].  With elements wider than
    one byte, one of the two candidates can be an element and the other
    not: then either the duplicate is stored again or the new value is
    refused. *)
Theorem duplicate_check_sees_only_low_byte
    al e (set_contains : set -> byte -> M bool) ts (hp : heap) st blk v1 v2 :
  hp !! st = Some blk -> uchar v1 = uchar v2 ->
  ~ (set_add al e set_contains st ts v1 hp = Some (st, hp) /\
     exists st' hp' blk',
       set_add al e set_contains st ts v2 hp = Some (st', hp') /\
       hp' !! st' = Some blk' /\ size blk' = size blk + 1) /\
  forall pos,
  ~ (set_insert al e set_contains st ts pos v1 hp = Some (st, hp) /\
     exists st' hp' blk',
       set_insert al e set_contains st ts pos v2 hp = Some (st', hp') /\
       hp' !! st' = Some blk' /\ size blk' = size blk + 1).
Proof.
  intros Hst Hlow.
  (* Both macros: consult [set_contains], then either stop or make a slot
     and store; [slot] is the slot-making function of the macro at hand. *)
  assert (forall (slot : M (set * Z)) (run : Z -> M set),
            (forall v, run v
               = (found <- set_contains st (uchar v) ;;
                  if negb found then
                    r <- slot ;;
                    store_at (fst r) (snd r) (object_repr e ts v) ;;; ret (fst r)
                  else ret st)) ->
            ~ (run v1 hp = Some (st, hp) /\
               exists st' hp' blk',
                 run v2 hp = Some (st', hp') /\
                 hp' !! st' = Some blk' /\ size blk' = size blk + 1)) as Hboth.
  { intros slot run Hrun [H1 (st' & hp' & blk' & H2 & Hst' & Hsize)].
    rewrite Hrun in H1, H2. rewrite <- Hlow in H2.
    bind_inv H1. bind_inv H2. rewrite Hrun0 in Hrun1. injection Hrun1 as <- <-.
    destruct (negb a).
    - bind_inv H1. bind_inv H2. rewrite Hrun1 in Hrun2. injection Hrun2 as <- <-.
      bind_inv H1. bind_inv H2.
      apply ret_Some in H1 as [Hh ->]. apply ret_Some in H2 as [-> ->].
      apply store_at_inv in Hrun2 as (b1 & d1 & Hb1 & ->).
      apply store_at_inv in Hrun3 as (b2 & d2 & Hb2 & ->).
      rewrite Hb1 in Hb2. injection Hb2 as <-.
      rewrite <- Hh, lookup_insert_eq in Hst, Hst'.
      injection Hst as <-. injection Hst' as <-. simpl in Hsize. lia.
    - apply ret_Some in H1 as [_ ->]. apply ret_Some in H2 as [-> ->].
      rewrite Hst in Hst'. injection Hst' as <-. lia. }
  split.
  - apply (Hboth (_set_add_dst al st ts)
             (fun v => set_add al e set_contains st ts v)). done.
  - intros pos.
    apply (Hboth (_set_insert_dst al st ts pos)
             (fun v => set_insert al e set_contains st ts pos v)). done.
Qed.

Lemma duplicate_check_sees_only_low_byte_witness :
  In (object_repr LittleEndian 2 258) (elements 2 pair_block) /\
  ~ In (object_repr LittleEndian 2 514) (elements 2 pair_block) /\
  (* a body that answers "found": the new value 0x0202 is refused *)
  set_add demo_allocator LittleEndian (answering true) 1%positive 2 514 pair_heap
  = Some (1%positive, pair_heap) /\
  (* a body that answers "not found": the element 0x0102 is stored again *)
  (exists hp' blk',
     set_add demo_allocator LittleEndian (answering false) 1%positive 2 258 pair_heap
     = Some (1%positive, hp') /\
     hp' !! 1%positive = Some blk' /\
     elements 2 blk' = [[Byte.x02; Byte.x01]; [Byte.x02; Byte.x01]]) /\
  (* and no body does both right *)
  ~ (set_add demo_allocator LittleEndian (answering true) 1%positive 2 258 pair_heap
     = Some (1%positive, pair_heap) /\
     exists st' hp' blk',
       set_add demo_allocator LittleEndian (answering true) 1%positive 2 514 pair_heap
       = Some (st', hp') /\
       hp' !! st' = Some blk' /\ size blk' = size pair_block + 1).
Proof.
  split; [simpl; auto|].
  split; [simpl; intros [H|[]]; discriminate H|].
  split; [reflexivity|].
  split; [eexists _, _; split; [vm_compute; reflexivity|]; split; reflexivity|].
  apply (duplicate_check_sees_only_low_byte demo_allocator LittleEndian
           (answering true) 2 pair_heap 1%positive pair_block 258 514);
    reflexivity.
Defined.

(** ** C2: insert-slot *)

(** C2.  For a container of [n = size blk] elements and a position
    [0 <= pos <= n], [_set_insert_dst] succeeds, returns the slot at index
    [pos] (data offset [pos * type_size]), sets the size to [n + 1] and moves
    the elements at index [>= pos] one slot to the right; once the caller has
    written [v] into the slot, the elements read at indices [0..n] are the
    original sequence with [v] spliced in at index [pos], every other element
    in its original relative order.  Growth, if it is needed, must ask for a
    representable allocation size. *)
Theorem insert_dst_splices al (hp : heap) st blk ts pos v :
  hp !! st = Some blk -> wf ts blk -> 0 <= pos <= size blk ->
  (size blk = capacity blk -> alloc_ok ts (Z.max 1 (capacity blk * 2))) ->
  Z.of_nat (length v) = ts ->
  exists st' hp1 blk1 hp2 blk2,
    _set_insert_dst al st ts pos hp = Some ((st', pos * ts), hp1) /\
    hp1 !! st' = Some blk1 /\
    size blk1 = size blk + 1 /\
    (forall i, 0 <= i < pos -> element_at ts blk1 i = element_at ts blk i) /\
    (forall i, pos <= i < size blk ->
               element_at ts blk1 (i + 1) = element_at ts blk i) /\
    store_at st' (pos * ts) v hp1 = Some (tt, hp2) /\
    hp2 !! st' = Some blk2 /\
    size blk2 = size blk + 1 /\
    elements ts blk2
    = take (Z.to_nat pos) (elements ts blk) ++ v :: drop (Z.to_nat pos) (elements ts blk) /\
    (forall i, 0 <= i < pos -> element_at ts blk2 i = element_at ts blk i) /\
    element_at ts blk2 pos = v /\
    (forall i, pos <= i < size blk ->
               element_at ts blk2 (i + 1) = element_at ts blk i).
Proof.
  intros Hst Hwf Hpos Hok Hv.
  destruct (insert_one_spec al ts hp st blk pos v Hst Hwf Hpos Hok Hv)
    as (st' & hp1 & blk1 & x & blk2 & Hrun & Hup & Hs1 & He1 & Hrun2 & _ & Hs2 & He2).
  assert (0 <= ts) as Hts by (destruct Hwf; lia).
  pose proof (length_elements ts blk) as Hlen.
  assert (forall b y, elements ts b
            = take (Z.to_nat pos) (elements ts blk) ++ y :: drop (Z.to_nat pos) (elements ts blk) ->
            size b = size blk + 1 ->
            (forall i, 0 <= i < pos -> element_at ts b i = element_at ts blk i) /\
            element_at ts b pos = y /\
            (forall i, pos <= i < size blk -> element_at ts b (i + 1) = element_at ts blk i))
    as Hreads.
  { intros b y Hb Hsb. split; [|split].
    - intros i Hi.
      pose proof (elements_lookup ts b i Hts ltac:(lia)) as Hl.
      rewrite Hb, splice_lookup_lt, elements_lookup in Hl by lia. congruence.
    - pose proof (elements_lookup ts b pos Hts ltac:(lia)) as Hl.
      rewrite Hb, splice_lookup_eq in Hl by lia. congruence.
    - intros i Hi.
      pose proof (elements_lookup ts b (i + 1) Hts ltac:(lia)) as Hl.
      replace (Z.to_nat (i + 1)) with (S (Z.to_nat i)) in Hl by lia.
      rewrite Hb, splice_lookup_gt, elements_lookup in Hl by lia. congruence. }
  destruct (Hreads blk1 x He1 Hs1) as (Hlo1 & _ & Hhi1).
  destruct (Hreads blk2 v He2 Hs2) as (Hlo2 & Hat2 & Hhi2).
  exists st', hp1, blk1, (<[st' := blk2]> hp1), blk2.
  rewrite lookup_insert_eq.
  split; [exact Hrun|]. split; [exact (updated_lookup _ _ _ _ _ Hup)|].
  repeat split; done.
Qed.

Lemma insert_dst_splices_witness :
  exists st' hp2 blk2,
    (r <- _set_insert_dst demo_allocator 1 1 1 ;;
     store_at (fst r) (snd r) [Byte.x09] ;;; ret (fst r)) demo_heap = Some (st', hp2) /\
    hp2 !! st' = Some blk2 /\
    elements 1 blk2 = [[Byte.x01]; [Byte.x09]; [Byte.x02]].
Proof.
  destruct (insert_dst_splices demo_allocator demo_heap 1%positive demo_block 1 1 [Byte.x09])
    as (st' & hp1 & blk1 & hp2 & blk2 & Hrun & _ & _ & _ & _ & Hrun2 & Hst2 & _ & He & _).
  - reflexivity.
  - exact demo_block_wf.
  - simpl; lia.
  - intros _. apply demo_alloc_ok. simpl. lia.
  - reflexivity.
  - exists st', hp2, blk2. split; [|split; [exact Hst2|exact He]].
    unfold bind. rewrite Hrun. simpl. rewrite Hrun2. reflexivity.
Defined.

(** ** C3: the growth policy *)

(** C3.  Growth is triggered exactly when [capacity - size == 0]:
    [set_has_space] answers [false] in that case and [true] otherwise, and
    [grow_if_needed], the guard that [_set_add_dst] and [_set_insert_dst]
    run first, leaves the capacity alone unless it holds.  When it is
    triggered, the block is reallocated to [max 1 (capacity * 2)] slots with
    its size and its existing bytes preserved.  Consequently, from a freshly
    created container (capacity 0), [n] growth steps in a row yield the
    capacities 1, 2, 4, ..., [2 ^ (n - 1)].  Allocation sizes must be
    representable. *)
Theorem growth_doubles al ts (hp : heap) h blk :
  hp !! h = Some blk -> wf ts blk ->
  set_has_space h hp = Some (negb (capacity blk - size blk =? 0), hp) /\
  ((size blk = capacity blk -> alloc_ok ts (Z.max 1 (capacity blk * 2))) ->
   exists h' hp' blk',
     grow_if_needed al h ts hp = Some (h', hp') /\
     updated hp h h' blk' hp' /\
     capacity blk'
     = (if capacity blk - size blk =? 0 then Z.max 1 (capacity blk * 2)
        else capacity blk) /\
     size blk' = size blk /\
     take (length (data blk)) (data blk') = data blk /\
     Z.of_nat (length (data blk')) = capacity blk' * ts) /\
  (alloc_ok ts (Z.max 1 (capacity blk * 2)) ->
   exists h' hp' blk',
     set_realloc al h ts hp = Some (h', hp') /\
     updated hp h h' blk' hp' /\
     capacity blk' = Z.max 1 (capacity blk * 2) /\
     size blk' = size blk /\
     take (length (data blk)) (data blk') = data blk /\
     Z.of_nat (length (data blk')) = capacity blk' * ts) /\
  (forall (n : nat) (hp0 : heap),
     alloc_ok ts (2 ^ (Z.of_nat n - 1)) ->
     exists h' hp',
       (h0 <- set_create al ;; grow_times al ts n h0) hp0
       = Some ((h', (fun i => 2 ^ i) <$> seqZ 0 (Z.of_nat n)), hp')).
Proof.
  intros Hh Hwf.
  pose proof (wf_capacity_max _ _ Hwf) as Hmax.
  assert (0 < ts /\ 0 <= size blk <= capacity blk
          /\ Z.of_nat (length (data blk)) = capacity blk * ts)
    as (Hts & Hs & Hd) by (destruct Hwf; lia).
  split; [by apply set_has_space_spec|]. split; [|split].
  - intros Hok.
    destruct (grow_if_needed_spec al hp h blk ts Hh Hwf Hok)
      as (h' & hp' & blk' & Hrun & Hup & Hs' & Hc' & [ext Hd'] & Hwf' & _).
    exists h', hp', blk'. split; [exact Hrun|]. split; [exact Hup|].
    split; [exact Hc'|]. split; [exact Hs'|]. split.
    + by rewrite Hd', take_app_length.
    + by destruct Hwf'.
  - intros Hok.
    destruct (set_realloc_spec al hp h blk ts Hh Hts) as (h' & hp' & Hrun & Hup);
      [lia|done|].
    eexists h', hp', _. split; [exact Hrun|]. split; [exact Hup|]. simpl.
    unfold alloc_ok in Hok.
    split; [done|]. split; [done|]. split.
    + rewrite resize_grow by nia. by rewrite take_app_length.
    + rewrite length_resize. nia.
  - intros n hp0 Hok. unfold bind at 1. rewrite set_create_spec.
    set (h0 := fresh (dom hp0)). set (hp1 := <[h0 := mk_header 0 0 []]> hp0).
    destruct n as [|n]; [by exists h0, hp1|].
    replace (Z.of_nat (S n) - 1) with (Z.of_nat n) in Hok by lia.
    assert (1 <= 2 ^ Z.of_nat n) as Hpow by (apply Z.pow_le_mono_r with (b := 0); lia).
    destruct (set_realloc_spec al hp1 h0 (mk_header 0 0 []) ts) as (h1 & hp2 & Hrun & Hup);
      [apply lookup_insert_eq|done|simpl; lia|simpl; by eapply alloc_ok_mono|].
    simpl in Hup.
    pose proof (updated_lookup _ _ _ _ _ Hup) as Hh1.
    destruct (grow_times_spec al ts n hp2 h1 _ 0 Hh1) as (h' & hp' & Hrun');
      [|lia|done|done|].
    { unfold alloc_ok in Hok. split; simpl; [done|lia| |].
      - rewrite length_resize. lia.
      - nia. }
    exists h', hp'. simpl. unfold bind at 1. rewrite Hrun.
    unfold bind at 1. rewrite (set_capacity_Some _ _ _ Hh1).
    unfold bind. rewrite Hrun'. simpl.
    rewrite (seqZ_cons 0) by lia. rewrite fmap_cons.
    by replace (Z.pred (Z.of_nat (S n))) with (Z.of_nat n) by lia.
Qed.

Lemma growth_doubles_witness :
  set_has_space 1%positive demo_heap = Some (false, demo_heap) /\
  (exists h' hp' blk',
     set_realloc demo_allocator 1%positive 1 demo_heap = Some (h', hp') /\
     hp' !! h' = Some blk' /\ capacity blk' = 4 /\ size blk' = 2 /\
     take 2 (data blk') = [Byte.x01; Byte.x02]) /\
  exists h' hp',
    (h0 <- set_create demo_allocator ;; grow_times demo_allocator 1 4 h0) ∅
    = Some ((h', [1; 2; 4; 8]), hp').
Proof.
  destruct (growth_doubles demo_allocator 1 demo_heap 1%positive demo_block)
    as (Hspace & _ & Hgrow & Hseq).
  - reflexivity.
  - exact demo_block_wf.
  - split; [exact Hspace|]. split.
    + destruct Hgrow as (h' & hp' & blk' & Hrun & Hup & Hc & Hs & Hd & _).
      { apply demo_alloc_ok. simpl. lia. }
      exists h', hp', blk'. split; [exact Hrun|].
      split; [exact (updated_lookup _ _ _ _ _ Hup)|].
      split; [exact Hc|]. split; [exact Hs|exact Hd].
    + apply (Hseq 4%nat ∅). apply demo_alloc_ok. simpl. lia.
Defined.

(** ** C4: copy *)

(** C4.  [_set_copy] of a container [st] succeeds and returns a handle [c]
    to a new block at an address that was unused, so different from [st];
    the source block is untouched.  The copy has the size of the source, a
    capacity equal to that size whatever the capacity of the source, and as
    data exactly the first [size * type_size] bytes of the source, hence the
    same elements.  From then on the two are independent: whatever sequence
    of mutations (with whatever element size) is run on the one, through its
    successive handles, the block of the other is unchanged, and its handle
    never becomes the handle of the mutated one. *)
Theorem copy_is_tight_and_independent al ts (hp : heap) st blk :
  hp !! st = Some blk -> wf ts blk ->
  exists c hp1 cblk,
    _set_copy al st ts hp = Some (c, hp1) /\
    hp !! c = None /\ c ≠ st /\
    hp1 !! st = Some blk /\
    hp1 !! c = Some cblk /\
    size cblk = size blk /\
    capacity cblk = size blk /\
    data cblk = take (Z.to_nat (size blk * ts)) (data blk) /\
    elements ts cblk = elements ts blk /\
    (forall ts' ms st' hp2,
       mutate_all al ts' ms st hp1 = Some (st', hp2) ->
       hp2 !! c = Some cblk /\ c ≠ st') /\
    (forall ts' ms c' hp2,
       mutate_all al ts' ms c hp1 = Some (c', hp2) ->
       hp2 !! st = Some blk /\ st ≠ c').
Proof.
  intros Hst Hwf.
  pose proof (fresh_unused hp) as Hfresh.
  assert (fresh (dom hp) ≠ st) as Hne by congruence.
  eexists _, _, _. split; [by apply _set_copy_spec|].
  split; [done|]. split; [done|].
  rewrite lookup_insert_ne by done. split; [done|].
  rewrite lookup_insert_eq. split; [done|]. simpl.
  split; [done|]. split; [done|]. split; [done|]. split.
  - destruct Hwf as [Hts Hs Hd _]. unfold elements; simpl.
    rewrite Z2Nat.inj_mul by lia. apply chunks_take_data.
  - split.
    + intros ts' ms st' hp2 Hrun.
      eapply (mutate_all_kept al ts' ms _ _ _ _ Hrun); [done|].
      apply lookup_insert_eq.
    + intros ts' ms c' hp2 Hrun.
      eapply (mutate_all_kept al ts' ms _ _ _ _ Hrun); [done|].
      by rewrite lookup_insert_ne.
Qed.

Lemma copy_is_tight_and_independent_witness :
  exists c hp1 cblk,
    _set_copy demo_allocator 1%positive 1
      {[ 1%positive := mk_header 1 2 [Byte.x01; Byte.x02] ]} = Some (c, hp1) /\
    c ≠ 1%positive /\
    hp1 !! c = Some cblk /\
    size cblk = 1 /\ capacity cblk = 1 /\ data cblk = [Byte.x01].
Proof.
  destruct (copy_is_tight_and_independent demo_allocator 1
              {[ 1%positive := mk_header 1 2 [Byte.x01; Byte.x02] ]} 1%positive
              (mk_header 1 2 [Byte.x01; Byte.x02]))
    as (c & hp1 & cblk & Hrun & _ & Hne & _ & Hc & Hs & Hcap & Hd & _).
  - reflexivity.
  - split; simpl; unfold sizeof_set_header, SIZE_MAX; lia.
  - exists c, hp1, cblk. split; [exact Hrun|]. split; [exact Hne|].
    split; [exact Hc|]. split; [exact Hs|]. split; [exact Hcap|exact Hd].
Defined.

(** ** C5: erase-range and remove *)

(** C5.  For a container of [n = size blk] elements and a range
    [pos, pos + len) inside it, [_set_erase] succeeds, moves the elements at
    index [>= pos + len] left by [len] slots and sets the size to [n - len]:
    the elements are the original sequence with indices [pos .. pos+len-1]
    deleted, the others in their original order.  The capacity is unchanged,
    no other block is touched, and [_set_remove] at [pos] is [_set_erase]
    with length 1. *)
Theorem erase_removes_range (hp : heap) st blk ts pos len :
  hp !! st = Some blk -> wf ts blk ->
  0 <= pos -> 0 <= len -> pos + len <= size blk ->
  exists blk',
    _set_erase st ts pos len hp = Some (tt, <[st := blk']> hp) /\
    size blk' = size blk - len /\
    capacity blk' = capacity blk /\
    elements ts blk'
    = take (Z.to_nat pos) (elements ts blk)
      ++ drop (Z.to_nat (pos + len)) (elements ts blk) /\
    (forall i, 0 <= i < pos -> element_at ts blk' i = element_at ts blk i) /\
    (forall i, pos + len <= i < size blk ->
               element_at ts blk' (i - len) = element_at ts blk i) /\
    (forall p, _set_remove st ts p = _set_erase st ts p 1).
Proof.
  intros Hst Hwf Hpos Hlen Hend.
  destruct (_set_erase_spec hp st blk ts pos len Hst Hwf Hpos Hlen Hend)
    as (blk' & Hrun & Hs & Hc & He & Hwf').
  assert (0 <= ts) as Hts by (destruct Hwf; lia).
  pose proof (length_elements ts blk) as Hl.
  exists blk'. repeat split; try done.
  - intros i Hi.
    pose proof (elements_lookup ts blk' i Hts ltac:(lia)) as Hi'.
    rewrite He, cut_lookup_lt, elements_lookup in Hi' by lia. congruence.
  - intros i Hi.
    pose proof (elements_lookup ts blk' (i - len) Hts ltac:(lia)) as Hi'.
    rewrite He, Z2Nat.inj_add, cut_lookup_ge in Hi' by lia.
    replace (Z.to_nat (i - len) + Z.to_nat len)%nat with (Z.to_nat i) in Hi' by lia.
    rewrite elements_lookup in Hi' by lia. congruence.
Qed.

Lemma erase_removes_range_witness :
  exists blk',
    _set_remove 1%positive 1 0 demo_heap = Some (tt, <[1%positive := blk']> demo_heap) /\
    size blk' = 1 /\ capacity blk' = 2 /\ elements 1 blk' = [[Byte.x02]].
Proof.
  destruct (erase_removes_range demo_heap 1%positive demo_block 1 0 1)
    as (blk' & Hrun & Hs & Hc & He & _ & _ & Hrm).
  - reflexivity.
  - exact demo_block_wf.
  - lia.
  - lia.
  - simpl; lia.
  - exists blk'. rewrite Hrm. split; [exact Hrun|].
    split; [exact Hs|]. split; [exact Hc|exact He].
Defined.

(** ** C6: reserve *)

(** C6, as amended.  [_set_reserve] with a requested capacity
    [k <= capacity] changes nothing: same handle, same heap.  With
    [k > capacity] and an allocation size [sizeof(set_header) + k * type_size]
    that fits [size_t], the container afterwards has capacity exactly [k],
    the same size, and its old bytes, hence its elements, unchanged; no
    other block is touched. *)
Theorem reserve_exact al (hp : heap) st blk ts k :
  hp !! st = Some blk -> wf ts blk ->
  (k <= capacity blk -> _set_reserve al st ts k hp = Some (st, hp)) /\
  (capacity blk < k -> alloc_ok ts k ->
   exists st' hp' blk',
     _set_reserve al st ts k hp = Some (st', hp') /\
     updated hp st st' blk' hp' /\
     capacity blk' = k /\
     size blk' = size blk /\
     take (length (data blk)) (data blk') = data blk /\
     Z.of_nat (length (data blk')) = k * ts /\
     elements ts blk' = elements ts blk).
Proof.
  intros Hst Hwf. split.
  - intros Hk. by apply _set_reserve_enough with blk.
  - intros Hk Hok.
    destruct (_set_reserve_grows al hp st blk ts k Hst Hwf Hk Hok)
      as (st' & hp' & Hrun & Hup).
    eexists st', hp', _. split; [exact Hrun|]. split; [exact Hup|]. simpl.
    split; [done|]. split; [done|]. split; [by rewrite take_app_length|].
    destruct Hwf as [Hts Hs Hd Ha]. split.
    + rewrite length_app, length_fresh_bytes. nia.
    + unfold elements; simpl. apply chunks_prefix. nia.
Qed.

Lemma reserve_exact_witness :
  _set_reserve demo_allocator 1%positive 1 2 demo_heap = Some (1%positive, demo_heap) /\
  exists st' hp' blk',
    _set_reserve demo_allocator 1%positive 1 10 demo_heap = Some (st', hp') /\
    hp' !! st' = Some blk' /\ capacity blk' = 10 /\ size blk' = 2 /\
    elements 1 blk' = [[Byte.x01]; [Byte.x02]].
Proof.
  destruct (reserve_exact demo_allocator demo_heap 1%positive demo_block 1 2)
    as [Hnoop _]; [reflexivity|exact demo_block_wf|].
  destruct (reserve_exact demo_allocator demo_heap 1%positive demo_block 1 10)
    as [_ Hgrow]; [reflexivity|exact demo_block_wf|].
  split; [apply Hnoop; simpl; lia|].
  destruct Hgrow as (st' & hp' & blk' & Hrun & Hup & Hc & Hs & _ & _ & He).
  - simpl; lia.
  - apply demo_alloc_ok; lia.
  - exists st', hp', blk'. split; [exact Hrun|].
    split; [exact (updated_lookup _ _ _ _ _ Hup)|].
    split; [exact Hc|]. split; [exact Hs|exact He].
Defined.

(** C6, as first stated (for every requested capacity), fails.  The
    allocation size is computed in [size_t] and wraps: reserving
    [k = 2 ^ 62 + 1] slots for a container of three 4-byte elements asks
    [realloc] for [16 + (4 * k mod 2 ^ 64) = 20] bytes.  The call succeeds and
    records capacity [k], but the data is cut down to 4 bytes: the bytes of
    the second and third element are gone, with either allocator. *)
Lemma reserve_wraps_and_truncates :
  capacity triple_block < 4611686018427387905 /\
  elements 4 triple_block
  = [[Byte.x01; Byte.x00; Byte.x00; Byte.x00];
     [Byte.x02; Byte.x00; Byte.x00; Byte.x00];
     [Byte.x03; Byte.x00; Byte.x00; Byte.x00]] /\
  (exists st' hp' blk',
     _set_reserve demo_allocator 1%positive 4 4611686018427387905 triple_heap
     = Some (st', hp') /\
     hp' !! st' = Some blk' /\
     capacity blk' = 4611686018427387905 /\
     size blk' = 3 /\
     data blk' = [Byte.x01; Byte.x00; Byte.x00; Byte.x00] /\
     take (length (data triple_block)) (data blk') <> data triple_block /\
     elements 4 blk' <> elements 4 triple_block) /\
  (exists st' hp' blk',
     _set_reserve in_place_allocator 1%positive 4 4611686018427387905 triple_heap
     = Some (st', hp') /\
     hp' !! st' = Some blk' /\
     capacity blk' = 4611686018427387905 /\
     size blk' = 3 /\
     data blk' = [Byte.x01; Byte.x00; Byte.x00; Byte.x00] /\
     elements 4 blk' <> elements 4 triple_block).
Proof.
  split; [simpl; lia|]. split; [reflexivity|]. split.
  - eexists _, _, _. split; [vm_compute; reflexivity|].
    split; [vm_compute; reflexivity|].
    split; [reflexivity|]. split; [reflexivity|]. split; [reflexivity|].
    split; vm_compute; discriminate.
  - eexists _, _, _. split; [vm_compute; reflexivity|].
    split; [vm_compute; reflexivity|].
    split; [reflexivity|]. split; [reflexivity|]. split; [reflexivity|].
    vm_compute; discriminate.
Qed.

(** ** C7: appending *)

(** C7.  Starting from a freshly created container, appending the elements
    [vs] one by one (take a slot with [_set_add_dst], write the element)
    succeeds; the [i]-th append is handed the slot at index [i], which is the
    size at that moment; afterwards the size is the number of appends and the
    elements read back are [vs], in the order they were appended.  More
    generally, appending to any well-formed container leaves the elements it
    already had in place, in order, before the new ones, whatever
    reallocations occurred. *)
Theorem appends_read_back al ts vs :
  0 < ts ->
  Forall (fun v => Z.of_nat (length v) = ts) vs ->
  (forall (hp : heap),
     alloc_ok ts (2 * Z.of_nat (length vs)) ->
     exists st hp' blk,
       (st0 <- set_create al ;; append_all al ts st0 vs) hp
       = Some ((st, (fun i => i * ts) <$> seqZ 0 (Z.of_nat (length vs))), hp') /\
       hp' !! st = Some blk /\
       size blk = Z.of_nat (length vs) /\
       elements ts blk = vs) /\
  (forall (hp : heap) st0 blk0,
     hp !! st0 = Some blk0 -> wf ts blk0 ->
     alloc_ok ts (2 * (size blk0 + Z.of_nat (length vs))) ->
     exists st hp' blk,
       append_all al ts st0 vs hp
       = Some ((st, (fun i => i * ts) <$> seqZ (size blk0) (Z.of_nat (length vs))), hp') /\
       hp' !! st = Some blk /\
       size blk = size blk0 + Z.of_nat (length vs) /\
       elements ts blk = elements ts blk0 ++ vs).
Proof.
  intros Hts Hvs. split.
  - intros hp Hok.
    destruct (append_all_spec al ts vs (<[fresh (dom hp) := mk_header 0 0 []]> hp)
                (fresh (dom hp)) (mk_header 0 0 []))
      as (st & hp' & blk & Hrun & Hup & _ & Hs & He & _);
      [apply lookup_insert_eq|by apply wf_empty|done|done|].
    exists st, hp', blk. unfold bind. rewrite set_create_spec.
    split; [exact Hrun|]. split; [exact (updated_lookup _ _ _ _ _ Hup)|].
    split; [exact Hs|exact He].
  - intros hp st0 blk0 Hst0 Hwf0 Hok.
    destruct (append_all_spec al ts vs hp st0 blk0 Hst0 Hwf0 Hvs Hok)
      as (st & hp' & blk & Hrun & Hup & _ & Hs & He & _).
    exists st, hp', blk. split; [exact Hrun|].
    split; [exact (updated_lookup _ _ _ _ _ Hup)|]. split; [exact Hs|exact He].
Qed.

Lemma appends_read_back_witness :
  exists st hp' blk,
    (st0 <- set_create demo_allocator ;;
     append_all demo_allocator 1 st0 [[Byte.x07]; [Byte.x08]; [Byte.x09]]) ∅
    = Some ((st, [0; 1; 2]), hp') /\
    hp' !! st = Some blk /\
    size blk = 3 /\
    elements 1 blk = [[Byte.x07]; [Byte.x08]; [Byte.x09]].
Proof.
  destruct (appends_read_back demo_allocator 1 [[Byte.x07]; [Byte.x08]; [Byte.x09]])
    as [Hfresh _].
  - lia.
  - repeat constructor.
  - apply (Hfresh ∅). apply demo_alloc_ok. simpl. lia.
Defined.

(** ** C8: pop *)

(** C8.  On a container with [size > 0], [set_pop] succeeds and only
    decrements the size field: capacity and every data byte of the block,
    the vacated slot included, are as before, and so is every other block. *)
Theorem pop_only_decrements (hp : heap) st blk :
  hp !! st = Some blk -> 0 < size blk <= SIZE_MAX ->
  exists hp' blk',
    set_pop st hp = Some (tt, hp') /\
    hp' !! st = Some blk' /\
    size blk' = size blk - 1 /\
    capacity blk' = capacity blk /\
    data blk' = data blk /\
    (forall q, q ≠ st -> hp' !! q = hp !! q).
Proof.
  intros Hst Hs. eexists _, _. split; [by apply set_pop_spec|].
  rewrite lookup_insert_eq. repeat split; try done.
  intros q Hq. by rewrite lookup_insert_ne.
Qed.

Lemma pop_only_decrements_witness :
  exists hp' blk',
    set_pop 1%positive demo_heap = Some (tt, hp') /\
    hp' !! 1%positive = Some blk' /\
    size blk' = 1 /\ capacity blk' = 2 /\ data blk' = [Byte.x01; Byte.x02].
Proof.
  destruct (pop_only_decrements demo_heap 1%positive demo_block)
    as (hp' & blk' & Hrun & Hst & Hs & Hc & Hd & _).
  - reflexivity.
  - simpl. unfold SIZE_MAX. lia.
  - exists hp', blk'. split; [exact Hrun|]. split; [exact Hst|].
    split; [exact Hs|]. split; [exact Hc|exact Hd].
Defined.

(** ** C9: the invariant *)



(** ** C10: inserting at the end is appending *)

(** C10.  On a container of [n = size blk] elements, [_set_insert_dst] at
    position [n] and [_set_add_dst] succeed with one and the same result:
    the same handle, the same returned slot (index [n], data offset
    [n * type_size]) and the same heap, hence the same size, capacity and
    bytes. *)
Theorem insert_at_end_is_add al (hp : heap) st blk ts :
  hp !! st = Some blk -> wf ts blk ->
  (size blk = capacity blk -> alloc_ok ts (Z.max 1 (capacity blk * 2))) ->
  exists st' hp',
    _set_add_dst al st ts hp = Some ((st', size blk * ts), hp') /\
    _set_insert_dst al st ts (size blk) hp = Some ((st', size blk * ts), hp').
Proof.
  intros Hst Hwf Hok.
  destruct (grow_if_needed_spec al hp st blk ts Hst Hwf Hok)
    as (h & hp1 & blk1 & Hrun & Hup & Hs1 & Hc1 & _ & Hwf1 & Hroom).
  pose proof (updated_lookup _ _ _ _ _ Hup) as Hh.
  pose proof (wf_capacity_max _ _ Hwf1) as Hmax.
  destruct Hwf as [Hts Hs Hd Ha]. destruct Hwf1 as [_ Hs1' Hd1' Ha1].
  unfold sizeof_set_header in *.
  exists h, (<[h := mk_header (size blk + 1) (capacity blk1) (data blk1)]> hp1).
  split.
  - rewrite _set_add_dst_unfold. unfold bind, set_get_header. rewrite Hrun.
    rewrite (load_Some _ _ _ Hh), (set_field_size_Some _ _ _ _ Hh).
    rewrite Hs1, (size_wrap_small (size blk + 1)) by lia.
    rewrite size_wrap_small by nia. by rewrite (Z.mul_comm ts).
  - rewrite _set_insert_dst_unfold. unfold bind, set_get_header.
    rewrite (load_Some _ _ _ Hst), Hrun, (load_Some _ _ _ Hh).
    rewrite Hs1, Z.sub_diag.
    rewrite (size_wrap_small 0), (size_wrap_small (size blk + 1)) by lia.
    rewrite !size_wrap_small by nia.
    unfold memmove_data, bind. rewrite (load_Some _ _ _ Hh).
    unfold memmove. rewrite Z.mul_0_l, !Z.add_0_r.
    rewrite andb_true_intro by (split; apply Z.leb_le; nia).
    rewrite (store_Some _ _ _ _ Hh).
    erewrite set_field_size_Some by apply lookup_insert_eq.
    rewrite insert_insert_eq. simpl.
    by rewrite take_drop.
Qed.

Lemma insert_at_end_is_add_witness :
  exists r,
    _set_add_dst demo_allocator 1%positive 1 demo_heap = Some r /\
    _set_insert_dst demo_allocator 1%positive 1 2 demo_heap = Some r /\
    snd (fst r) = 2.
Proof.
  destruct (insert_at_end_is_add demo_allocator demo_heap 1%positive demo_block 1)
    as (st' & hp' & Hadd & Hins).
  - reflexivity.
  - exact demo_block_wf.
  - intros _. apply demo_alloc_ok. simpl. lia.
  - exists ((st', 2), hp'). split; [exact Hadd|]. split; [exact Hins|reflexivity].
Defined.

(** ** Further properties *)

(** *** Erasing twice *)

(** Erasing [len1] elements at [pos] and then [len2] elements at the same
    position leaves the same size, capacity and elements as erasing
    [len1 + len2] elements at [pos] in one call. *)
Theorem erase_twice_is_erase_union ts (hp : heap) st blk pos len1 len2 :
  hp !! st = Some blk -> wf ts blk ->
  0 <= pos -> 0 <= len1 -> 0 <= len2 -> pos + len1 + len2 <= size blk ->
  exists hp2 blk2 hp12 blk12,
    (_set_erase st ts pos len1 ;;; _set_erase st ts pos len2) hp = Some (tt, hp2) /\
    hp2 !! st = Some blk2 /\
    _set_erase st ts pos (len1 + len2) hp = Some (tt, hp12) /\
    hp12 !! st = Some blk12 /\
    size blk2 = size blk12 /\
    capacity blk2 = capacity blk12 /\
    elements ts blk2 = elements ts blk12.
Proof.
  intros Hst Hwf Hpos Hl1 Hl2 Hend.
  destruct (_set_erase_spec hp st blk ts pos len1 Hst Hwf)
    as (blk1 & Hrun1 & Hs1 & Hc1 & He1 & Hwf1); [lia..|].
  destruct (_set_erase_spec (<[st := blk1]> hp) st blk1 ts pos len2
              (lookup_insert_eq _ _ _) Hwf1)
    as (blk2 & Hrun2 & Hs2 & Hc2 & He2 & Hwf2); [lia..|].
  destruct (_set_erase_spec hp st blk ts pos (len1 + len2) Hst Hwf)
    as (blk12 & Hrun12 & Hs12 & Hc12 & He12 & Hwf12); [lia..|].
  eexists _, blk2, _, blk12. split.
  { unfold bind. rewrite Hrun1. exact Hrun2. }
  split; [apply lookup_insert_eq|]. split; [exact Hrun12|].
  split; [apply lookup_insert_eq|]. split; [lia|]. split; [lia|].
  rewrite He2, He12, He1.
  pose proof (length_elements ts blk) as Hlen.
  assert (length (take (Z.to_nat pos) (elements ts blk)) = Z.to_nat pos) as Hp
    by (rewrite length_take; lia).
  rewrite take_app_length' by done.
  rewrite (Z2Nat.inj_add pos len2) by lia.
  rewrite drop_app_add' by done.
  rewrite drop_drop. do 2 f_equal. lia.
Qed.

Lemma erase_twice_is_erase_union_witness :
  exists hp2 blk2,
    (_set_erase 1%positive 1 0 1 ;;; _set_erase 1%positive 1 0 1) demo_heap
    = Some (tt, hp2) /\
    hp2 !! 1%positive = Some blk2 /\
    size blk2 = 0 /\ elements 1 blk2 = [].
Proof.
  destruct (erase_twice_is_erase_union 1 demo_heap 1%positive demo_block 0 1 1)
    as (hp2 & blk2 & hp12 & blk12 & Hrun & Hst & Hrun12 & Hst12 & Hs & _ & He).
  - reflexivity.
  - exact demo_block_wf.
  - lia.
  - lia.
  - lia.
  - simpl. lia.
  - exists hp2, blk2. split; [exact Hrun|]. split; [exact Hst|].
    vm_compute in Hrun12. injection Hrun12 as <-.
    vm_compute in Hst12. injection Hst12 as <-.
    split; [exact Hs|exact He].
Defined.

(** *** Capacity *)

(** After [n >= 1] appends to a freshly created container the capacity is
    the power of two between [n] and [2 * n - 1]: the growth steps triggered
    along the way went through 1, 2, 4, 8, ... *)
Theorem appends_capacity_power_of_two al ts vs :
  0 < ts -> vs ≠ [] ->
  Forall (fun v => Z.of_nat (length v) = ts) vs ->
  alloc_ok ts (2 * Z.of_nat (length vs)) ->
  forall hp : heap,
  exists r hp' blk k,
    (st0 <- set_create al ;; append_all al ts st0 vs) hp = Some (r, hp') /\
    hp' !! fst r = Some blk /\
    size blk = Z.of_nat (length vs) /\
    0 <= k /\ capacity blk = 2 ^ k /\
    Z.of_nat (length vs) <= capacity blk < 2 * Z.of_nat (length vs).
Proof.
  intros Hts Hne Hvs Hok hp.
  destruct (append_all_spec al ts vs (<[fresh (dom hp) := mk_header 0 0 []]> hp)
              (fresh (dom hp)) (mk_header 0 0 []))
    as (st & hp' & blk & Hrun & Hup & _ & Hs & _ & Hcap);
    [apply lookup_insert_eq|by apply wf_empty|done|done|].
  simpl in Hs, Hcap.
  destruct Hcap as [[Hs0 _]|(k & Hk & Hc & Hbounds)]; [by left| |].
  { destruct vs; [done|]. simpl in Hs. lia. }
  eexists _, hp', blk, k. unfold bind. rewrite set_create_spec.
  split; [exact Hrun|]. split; [exact (updated_lookup _ _ _ _ _ Hup)|].
  split; [done|]. split; [done|]. split; [done|lia].
Qed.

Lemma appends_capacity_power_of_two_witness :
  exists r hp' blk,
    (st0 <- set_create demo_allocator ;;
     append_all demo_allocator 1 st0 [[Byte.x07]; [Byte.x08]; [Byte.x09]]) ∅
    = Some (r, hp') /\
    hp' !! fst r = Some blk /\ capacity blk = 4.
Proof.
  destruct (appends_capacity_power_of_two demo_allocator 1
              [[Byte.x07]; [Byte.x08]; [Byte.x09]]) with (hp := (∅ : gmap positive set_header))
    as (r & hp' & blk & k & Hrun & Hst & _ & Hk & Hc & Hlo & Hhi).
  - lia.
  - discriminate.
  - repeat constructor.
  - apply demo_alloc_ok. simpl. lia.
  - exists r, hp', blk. split; [exact Hrun|]. split; [exact Hst|].
    simpl in Hlo, Hhi.
    assert (k = 2) as ->; [|exact Hc].
    destruct (Z.lt_trichotomy k 2) as [Hlt|[Heq|Hgt]]; [|exact Heq|].
    + assert (2 ^ k <= 2 ^ 1) by (apply Z.pow_le_mono_r; lia). lia.
    + assert (2 ^ 3 <= 2 ^ k) by (apply Z.pow_le_mono_r; lia). lia.
Defined.

(** No mutation run under its precondition on a well-formed container ever
    lowers the capacity. *)
Theorem capacity_never_shrinks al ts m (hp : heap) st blk :
  hp !! st = Some blk -> wf ts blk -> precondition ts m blk ->
  exists st' hp' blk',
    mutate al ts m st hp = Some (st', hp') /\
    hp' !! st' = Some blk' /\
    capacity blk <= capacity blk'.
Proof.
  intros Hst Hwf Hpre.
  destruct (mutate_preserves_wf al ts m hp st blk Hst Hwf Hpre)
    as (st' & hp' & blk' & Hrun & Hup & _ & Hc).
  exists st', hp', blk'. split; [exact Hrun|].
  split; [exact (updated_lookup _ _ _ _ _ Hup)|exact Hc].
Qed.

Lemma capacity_never_shrinks_witness :
  exists st' hp' blk',
    mutate demo_allocator 1 (Erase 0 2) 1%positive demo_heap = Some (st', hp') /\
    hp' !! st' = Some blk' /\
    2 <= capacity blk'.
Proof.
  apply (capacity_never_shrinks demo_allocator 1 (Erase 0 2) demo_heap 1%positive demo_block).
  - reflexivity.
  - exact demo_block_wf.
  - simpl. lia.
Defined.

(** *** The worked example *)

(** The example of section 8 of the specification, run with an allocator
    that always moves the block and one that never does, in both byte
    orders: after the appends the size is 3, the capacity 4 and the contents
    [1, 2, 3]; after the insert the contents are [1, 9, 2, 3] with size 4;
    after the remove they are [9, 2, 3] with size 3. *)
Theorem worked_example_runs e :
  let elt := object_repr e 4 in
  let expected :=
    [ (3, 4, [elt 1; elt 2; elt 3]);
      (4, 4, [elt 1; elt 9; elt 2; elt 3]);
      (3, 4, [elt 9; elt 2; elt 3]) ] in
  (exists hp, worked_example demo_allocator e ∅ = Some (expected, hp)) /\
  (exists hp, worked_example in_place_allocator e ∅ = Some (expected, hp)).
Proof.
  destruct e; split; eexists; vm_compute; reflexivity.
Qed.

(** *** Handles: what a successful operation does to the heap *)

Lemma store_updated (hp hp' : heap) h blk u :
  store h blk hp = Some (u, hp') -> updated hp h h blk hp'.
Proof. intros H. apply store_inv in H as ->. apply updated_refl. Qed.

Lemma set_field_size_updated (hp hp' : heap) h v u :
  set_field_size h v hp = Some (u, hp') -> exists blk', updated hp h h blk' hp'.
Proof.
  unfold set_field_size. intros H. bind_inv H.
  apply load_inv in Hrun as [-> _]. eauto using store_updated.
Qed.

Lemma set_field_capacity_updated (hp hp' : heap) h v u :
  set_field_capacity h v hp = Some (u, hp') -> exists blk', updated hp h h blk' hp'.
Proof.
  unfold set_field_capacity. intros H. bind_inv H.
  apply load_inv in Hrun as [-> _]. eauto using store_updated.
Qed.

Lemma memmove_data_updated (hp hp' : heap) h dst src n u :
  memmove_data h dst src n hp = Some (u, hp') -> exists blk', updated hp h h blk' hp'.
Proof.
  unfold memmove_data. intros H. bind_inv H.
  apply load_inv in Hrun as [-> _].
  destruct (memmove _ _ _ _); [|done]. eauto using store_updated.
Qed.

Lemma store_at_updated (hp hp' : heap) h off v u :
  store_at h off v hp = Some (u, hp') -> exists blk', updated hp h h blk' hp'.
Proof.
  unfold store_at. intros H. bind_inv H.
  apply load_inv in Hrun as [-> _].
  destruct (write_bytes _ _ _); [|done]. eauto using store_updated.
Qed.

Lemma updated_chain (hp hp1 hp2 : heap) h h1 h2 b1 :
  updated hp h h1 b1 hp1 -> (exists b2, updated hp1 h1 h2 b2 hp2) ->
  exists b2, updated hp h h2 b2 hp2.
Proof. intros H1 [b2 H2]. eauto using updated_trans. Qed.

Section Handles.
Variable al : allocator.

Lemma realloc_updated (hp hp' : heap) h n h' :
realloc al h n hp = Some (h', hp') -> exists blk', updated hp h h' blk' hp'.
Proof.
intros H. destruct (hp !! h) as [blk|] eqn:Hh.
- destruct (Z.ltb_spec n sizeof_set_header) as [Hlt|Hge].
  + unfold realloc in H. rewrite Hh in H.
    by replace (n <? sizeof_set_header) with true in H
      by (symmetry; apply Z.ltb_lt; lia).
  + destruct (realloc_spec al hp h blk n Hh Hge) as (h1 & hp1 & Hrun & Hup).
    rewrite Hrun in H. injection H as <- <-. eauto.
- unfold realloc in H. by rewrite Hh in H.
Qed.

Lemma set_realloc_updated (hp hp' : heap) h ts h' :
set_realloc al h ts hp = Some (h', hp') -> exists blk', updated hp h h' blk' hp'.
Proof.
unfold set_realloc. intros H. bind_inv H. apply load_inv in Hrun as [-> _].
bind_inv H. apply realloc_updated in Hrun as [b1 Hup1].
bind_inv H. apply set_field_capacity_updated in Hrun.
apply ret_Some in H as [-> ->]. eauto using updated_chain.
Qed.

Lemma set_has_space_live (hp hp' : heap) h b :
set_has_space h hp = Some (b, hp') -> hp' = hp /\ exists blk, hp !! h = Some blk.
Proof.
unfold set_has_space. intros H. bind_inv H. apply load_inv in Hrun as [-> Hh].
apply ret_Some in H as [_ ->]. eauto.
Qed.

Lemma _set_add_dst_updated (hp hp' : heap) st ts r :
_set_add_dst al st ts hp = Some (r, hp') ->
exists blk', updated hp st (fst r) blk' hp'.
Proof.
unfold _set_add_dst, set_get_header. intros H.
bind_inv H. apply set_has_space_live in Hrun as [-> [blk Hst]].
bind_inv H.
assert (exists b1, updated hp st a0 b1 hp0) as [b1 Hup1].
{ destruct (negb a); [by apply set_realloc_updated in Hrun|].
  apply ret_Some in Hrun as [-> ->]. eauto using updated_id. }
bind_inv H. apply load_inv in Hrun0 as [-> _].
bind_inv H. apply set_field_size_updated in Hrun0.
apply ret_Some in H as [-> ->]. simpl. eauto using updated_chain.
Qed.

Lemma _set_insert_dst_updated (hp hp' : heap) st ts pos r :
_set_insert_dst al st ts pos hp = Some (r, hp') ->
exists blk', updated hp st (fst r) blk' hp'.
Proof.
unfold _set_insert_dst, set_get_header. intros H.
bind_inv H. apply load_inv in Hrun as [-> Hst].
bind_inv H. apply set_has_space_live in Hrun as [-> _].
bind_inv H.
assert (exists b1, updated hp st a1 b1 hp0) as [b1 Hup1].
{ destruct (negb a0); [by apply set_realloc_updated in Hrun|].
  apply ret_Some in Hrun as [-> ->]. eauto using updated_id. }
bind_inv H. apply load_inv in Hrun0 as [-> _].
bind_inv H. apply memmove_data_updated in Hrun0 as [b2 Hup2].
bind_inv H. apply set_field_size_updated in Hrun0.
apply ret_Some in H as [-> ->]. simpl.
eapply updated_chain; [|exact Hrun0].
eapply updated_trans; [exact Hup1|exact Hup2].
Qed.

Lemma _set_erase_updated (hp hp' : heap) st ts pos len u :
_set_erase st ts pos len hp = Some (u, hp') ->
exists blk', updated hp st st blk' hp'.
Proof.
unfold _set_erase, set_get_header. intros H.
bind_inv H. apply load_inv in Hrun as [-> _].
bind_inv H. apply memmove_data_updated in Hrun as [b1 Hup1].
bind_inv H. apply load_inv in Hrun as [-> _].
apply set_field_size_updated in H. eauto using updated_chain.
Qed.

Lemma set_pop_updated (hp hp' : heap) st u :
set_pop st hp = Some (u, hp') -> exists blk', updated hp st st blk' hp'.
Proof.
unfold set_pop, set_get_header. intros H.
bind_inv H. apply load_inv in Hrun as [-> _].
by apply set_field_size_updated in H.
Qed.

Lemma _set_reserve_updated (hp hp' : heap) st ts k st' :
_set_reserve al st ts k hp = Some (st', hp') ->
exists blk', updated hp st st' blk' hp'.
Proof.
unfold _set_reserve, set_get_header. intros H.
bind_inv H. apply load_inv in Hrun as [-> Hst].
destruct (k <=? capacity a).
- apply ret_Some in H as [-> ->]. eauto using updated_id.
- bind_inv H. apply realloc_updated in Hrun as [b1 Hup1].
  bind_inv H. apply set_field_capacity_updated in Hrun.
  apply ret_Some in H as [-> ->]. eauto using updated_chain.
Qed.

Lemma mutate_updated ts m (hp hp' : heap) st st' :
mutate al ts m st hp = Some (st', hp') -> exists blk', updated hp st st' blk' hp'.
Proof.
destruct m; simpl; intros H.
- bind_inv H. apply _set_add_dst_updated in Hrun.
  by apply ret_Some in H as [-> ->].
- bind_inv H. apply _set_insert_dst_updated in Hrun.
  by apply ret_Some in H as [-> ->].
- bind_inv H. apply _set_erase_updated in Hrun.
  by apply ret_Some in H as [-> ->].
- bind_inv H. apply _set_erase_updated in Hrun.
  by apply ret_Some in H as [-> ->].
- bind_inv H. apply set_pop_updated in Hrun.
  by apply ret_Some in H as [-> ->].
- by apply _set_reserve_updated in H.
- bind_inv H. apply store_at_updated in Hrun.
  by apply ret_Some in H as [-> ->].
Qed.

Lemma mutate_all_updated ts ms : forall (hp hp' : heap) st st' blk,
hp !! st = Some blk ->
mutate_all al ts ms st hp = Some (st', hp') ->
exists blk', updated hp st st' blk' hp'.
Proof.
induction ms as [|m ms IH]; simpl; intros hp hp' st st' blk Hst H.
- apply ret_Some in H as [-> ->]. eauto using updated_id.
- bind_inv H. apply mutate_updated in Hrun as [b1 Hup1].
  eapply updated_chain; [exact Hup1|].
  eapply IH; [exact (updated_lookup _ _ _ _ _ Hup1)|exact H].
Qed.

(** Nothing can be done through a handle whose block is gone. *)
Lemma dead_handle ts m (hp : heap) st :
hp !! st = None -> mutate al ts m st hp = None.
Proof.
intros Hst.
destruct m; simpl;
  unfold _set_add_dst, _set_insert_dst, _set_remove, _set_erase, set_pop,
    _set_reserve, store_at, set_has_space, set_get_header, bind, load;
  by rewrite Hst.
Qed.
End Handles.

(** *** Lifecycle *)

(** A container that is created, mutated by any sequence of operations and
    then freed through the handle the last operation returned leaves the
    heap exactly as it was before the creation: the one allocation is
    released, whatever reallocations happened in between, and no other block
    was touched. *)
Theorem create_mutate_free_restores_heap al ts ms (hp hp1 hp2 : heap) st0 st :
  set_create al hp = Some (st0, hp1) ->
  mutate_all al ts ms st0 hp1 = Some (st, hp2) ->
  set_free st hp2 = Some (tt, hp).
Proof.
  rewrite set_create_spec. intros [= <- <-] Hrun.
  pose proof (fresh_unused hp) as Hfresh.
  destruct (mutate_all_updated al ts ms _ _ _ _ _ (lookup_insert_eq _ _ _) Hrun)
    as (blk' & -> & Hst).
  rewrite delete_insert_id by done.
  assert (hp !! st = None) as Hnew.
  { destruct Hst as [->|Hst]; [done|].
    destruct (decide (st = fresh (dom hp))) as [->|Hne]; [done|].
    by rewrite lookup_insert_ne in Hst. }
  unfold set_free, free, set_get_header. rewrite lookup_insert_eq.
  by rewrite delete_insert_id.
Qed.

Lemma create_mutate_free_restores_heap_witness :
  exists st0 hp1 st hp2,
    set_create demo_allocator demo_heap = Some (st0, hp1) /\
    mutate_all demo_allocator 1
      [AddDst; StoreAt 0 [Byte.x07]; Reserve 5; InsertDst 0; Pop] st0 hp1
    = Some (st, hp2) /\
    set_free st hp2 = Some (tt, demo_heap).
Proof.
  destruct (mutate_all demo_allocator 1
              [AddDst; StoreAt 0 [Byte.x07]; Reserve 5; InsertDst 0; Pop]
              (fresh (dom demo_heap))
              (<[fresh (dom demo_heap) := mk_header 0 0 []]> demo_heap))
    as [[st hp2]|] eqn:Hrun; [|vm_compute in Hrun; discriminate Hrun].
  exists (fresh (dom demo_heap)), (<[fresh (dom demo_heap) := mk_header 0 0 []]> demo_heap),
    st, hp2.
  split; [apply set_create_spec|]. split; [exact Hrun|].
  exact (create_mutate_free_restores_heap demo_allocator 1 _ demo_heap _ _ _ _
           (set_create_spec _ _) Hrun).
Defined.

(** Freeing a live container releases its block and nothing else; after
    that the handle is dead: a second free, the size and capacity queries, a
    copy and every mutation through it are undefined. *)
Theorem free_kills_handle al (hp : heap) st blk :
  hp !! st = Some blk ->
  exists hp',
    set_free st hp = Some (tt, hp') /\
    hp' !! st = None /\
    (forall q, q ≠ st -> hp' !! q = hp !! q) /\
    set_free st hp' = None /\
    set_size st hp' = None /\
    set_capacity st hp' = None /\
    (forall ts, _set_copy al st ts hp' = None) /\
    (forall ts m, mutate al ts m st hp' = None).
Proof.
  intros Hst. exists (delete st hp).
  pose proof (lookup_delete_eq hp st) as Hdead.
  split; [unfold set_free, free, set_get_header; by rewrite Hst|].
  split; [done|].
  split; [intros q Hq; by rewrite lookup_delete_ne|].
  split; [unfold set_free, free, set_get_header; by rewrite Hdead|].
  split; [unfold set_size, bind, load, set_get_header; by rewrite Hdead|].
  split; [unfold set_capacity, bind, load, set_get_header; by rewrite Hdead|].
  split; [intros ts; unfold _set_copy, bind, load, set_get_header; by rewrite Hdead|].
  intros ts m. by apply dead_handle.
Qed.

Lemma free_kills_handle_witness :
  exists hp',
    set_free 1%positive demo_heap = Some (tt, hp') /\
    set_free 1%positive hp' = None /\
    mutate demo_allocator 1 Pop 1%positive hp' = None.
Proof.
  destruct (free_kills_handle demo_allocator demo_heap 1%positive demo_block)
    as (hp' & Hfree & _ & _ & Hagain & _ & _ & _ & Hdead).
  - reflexivity.
  - exists hp'. split; [exact Hfree|]. split; [exact Hagain|apply Hdead].
Defined.

(** When an operation hands back a handle different from the one it was
    given, the block has moved to an address that was unused and the old
    address is released: the old handle is dead, so the size query and every
    mutation through it are undefined.  The caller has to go on with the
    returned handle. *)
Theorem moved_handle_is_dead al ts m (hp hp' : heap) st st' :
  mutate al ts m st hp = Some (st', hp') -> st' ≠ st ->
  hp !! st' = None /\
  hp' !! st = None /\
  (exists blk', hp' !! st' = Some blk') /\
  set_size st hp' = None /\
  (forall ts' m', mutate al ts' m' st hp' = None).
Proof.
  intros Hrun Hne.
  destruct (mutate_updated al ts m _ _ _ _ Hrun) as (blk' & Hup).
  pose proof (updated_lookup _ _ _ _ _ Hup) as Hst'.
  destruct Hup as [-> [Heq|Hfresh]]; [done|].
  assert ((<[st' := blk']> (delete st hp) : gmap positive set_header) !! st = None)
    as Hdead by (rewrite lookup_insert_ne by done; apply lookup_delete_eq).
  split; [done|]. split; [done|]. split; [eauto|].
  split; [unfold set_size, bind, load, set_get_header; by rewrite Hdead|].
  intros ts' m'. by apply dead_handle.
Qed.

Lemma moved_handle_is_dead_witness :
  exists st' hp',
    mutate demo_allocator 1 AddDst 1%positive demo_heap = Some (st', hp') /\
    st' ≠ 1%positive /\
    hp' !! 1%positive = None /\
    mutate demo_allocator 1 Pop 1%positive hp' = None.
Proof.
  destruct (mutate demo_allocator 1 AddDst 1%positive demo_heap)
    as [[st' hp']|] eqn:Hrun; [|vm_compute in Hrun; discriminate Hrun].
  assert (st' ≠ 1%positive) as Hne.
  { vm_compute in Hrun. injection Hrun as <- _. discriminate. }
  destruct (moved_handle_is_dead demo_allocator 1 AddDst demo_heap hp' 1%positive st'
              Hrun Hne) as (_ & Hdead & _ & _ & Hall).
  exists st', hp'. split; [reflexivity|]. split; [exact Hne|].
  split; [exact Hdead|apply Hall].
Defined.

(** *** Unchecked preconditions *)

Lemma size_wrap_neg x : 0 < x <= SIZE_MAX -> size_wrap (- x) = 2 ^ 64 - x.
Proof.
  unfold size_wrap, SIZE_MAX. intros H.
  rewrite <- (Z_mod_plus_full (- x) 1 (2 ^ 64)).
  rewrite Z.mod_small by lia. lia.
Qed.

Lemma size_wrap_mul_l a b : size_wrap (size_wrap a * b) = size_wrap (a * b).
Proof. unfold size_wrap. apply Zmult_mod_idemp_l. Qed.

Lemma size_wrap_sub_l a b : size_wrap (size_wrap a - b) = size_wrap (a - b).
Proof. unfold size_wrap. apply Zminus_mod_idemp_l. Qed.

Lemma memmove_src_out_of_bounds (d : list byte) dst src n :
  Z.of_nat (length d) < src + n -> memmove d dst src n = None.
Proof.
  intros H. unfold memmove.
  replace (src + n <=? Z.of_nat (length d)) with false
    by (symmetry; apply Z.leb_gt; lia).
  by rewrite andb_false_r.
Qed.





(** [_set_erase] does not check its range: when [pos + len] exceeds the
    size (the offsets themselves still fitting [size_t]), the byte count
    passed to [memmove] wraps around to a huge value and the move reads past
    the end of the allocation, which is undefined.  In particular
    [_set_remove] at a position [>= size], and so on an empty container, is
    undefined. *)
Theorem erase_past_end_undefined ts (hp : heap) st blk pos len :
  hp !! st = Some blk -> wf ts blk ->
  0 <= pos -> 0 <= len -> size blk < pos + len ->
  (pos + len) * ts <= SIZE_MAX ->
  _set_erase st ts pos len hp = None /\
  (len = 1 -> _set_remove st ts pos hp = None).
Proof.
  intros Hst [Hts Hs Hd Ha] Hpos Hlen Hpast Hfit.
  unfold sizeof_set_header in Ha.
  assert (_set_erase st ts pos len hp = None) as Herase.
  { unfold _set_erase, bind, set_get_header. rewrite (load_Some _ _ _ Hst).
    unfold memmove_data, bind. rewrite (load_Some _ _ _ Hst).
    rewrite memmove_src_out_of_bounds; [done|].
    rewrite size_wrap_sub_l, (size_wrap_mul_l (size blk - pos - len)).
    rewrite (size_wrap_small (pos + len)) by nia.
    rewrite (size_wrap_small ((pos + len) * ts)) by nia.
    replace ((size blk - pos - len) * ts) with (- ((pos + len - size blk) * ts)) by lia.
    assert (0 < (pos + len - size blk) * ts <= SIZE_MAX) as Hj.
    { split; [apply Z.mul_pos_pos; lia|].
      etransitivity; [|exact Hfit]. apply Z.mul_le_mono_nonneg_r; lia. }
    rewrite size_wrap_neg by done.
    replace ((pos + len) * ts + (2 ^ 64 - (pos + len - size blk) * ts))
      with (2 ^ 64 + size blk * ts) by lia.
    unfold SIZE_MAX in Ha. nia. }
  split; [done|]. intros ->. exact Herase.
Qed.

Lemma erase_past_end_undefined_witness :
  _set_erase 1%positive 1 1 2 demo_heap = None /\
  _set_remove 1%positive 1 2 demo_heap = None.
Proof.
  split.
  - apply (erase_past_end_undefined 1 demo_heap 1%positive demo_block 1 2);
      [reflexivity|exact demo_block_wf|lia|lia|simpl; lia|vm_compute; discriminate].
  - apply (erase_past_end_undefined 1 demo_heap 1%positive demo_block 2 1);
      [reflexivity|exact demo_block_wf|lia|lia|simpl; lia|vm_compute; discriminate|reflexivity].
Defined.

(** [_set_insert_dst] does not check its position: with [pos > size] (the
    offsets still fitting [size_t]) the count [(size - pos) * type_size]
    wraps around and the [memmove] reads past the end of the allocation,
    which is undefined, whether or not the container had to grow first. *)
Theorem insert_past_end_undefined al ts (hp : heap) st blk pos :
  hp !! st = Some blk -> wf ts blk ->
  size blk < pos -> (pos + 1) * ts <= SIZE_MAX ->
  (size blk = capacity blk -> alloc_ok ts (Z.max 1 (capacity blk * 2))) ->
  _set_insert_dst al st ts pos hp = None.
Proof.
  intros Hst Hwf Hpast Hfit Hok.
  destruct (grow_if_needed_spec al hp st blk ts Hst Hwf Hok)
    as (h & hp1 & blk1 & Hrun & Hup & Hs1 & _ & _ & Hwf1 & _).
  pose proof (updated_lookup _ _ _ _ _ Hup) as Hh.
  destruct Hwf as [Hts Hs _ _]. destruct Hwf1 as [_ _ Hd1 Ha1].
  unfold sizeof_set_header in Ha1.
  rewrite _set_insert_dst_unfold. unfold bind, set_get_header.
  rewrite (load_Some _ _ _ Hst), Hrun, (load_Some _ _ _ Hh).
  unfold memmove_data, bind. rewrite (load_Some _ _ _ Hh).
  rewrite memmove_src_out_of_bounds; [done|].
  rewrite (size_wrap_mul_l (size blk1 - pos)), Hs1.
  rewrite (size_wrap_small (pos * ts)) by nia.
  replace ((size blk - pos) * ts) with (- ((pos - size blk) * ts)) by lia.
  assert (0 < (pos - size blk) * ts <= SIZE_MAX) as Hj.
  { split; [apply Z.mul_pos_pos; lia|].
    etransitivity; [|exact Hfit]. apply Z.mul_le_mono_nonneg_r; lia. }
  rewrite size_wrap_neg by done.
  replace (pos * ts + (2 ^ 64 - (pos - size blk) * ts))
    with (2 ^ 64 + size blk * ts) by lia.
  unfold SIZE_MAX in Ha1. nia.
Qed.

Lemma insert_past_end_undefined_witness :
  _set_insert_dst demo_allocator 1%positive 1 3 demo_heap = None.
Proof.
  apply (insert_past_end_undefined demo_allocator 1 demo_heap 1%positive demo_block 3).
  - reflexivity.
  - exact demo_block_wf.
  - simpl; lia.
  - vm_compute; discriminate.
  - intros _. apply demo_alloc_ok. simpl. lia.
Defined.

(** *** Spare capacity *)





(** *** Round trips *)

(** Appending an element and popping it again gives back the size and the
    elements the container had; the capacity may have grown and is then
    kept. *)
Theorem append_then_pop_restores al ts (hp : heap) st blk v :
  hp !! st = Some blk -> wf ts blk ->
  Z.of_nat (length v) = ts ->
  (size blk = capacity blk -> alloc_ok ts (Z.max 1 (capacity blk * 2))) ->
  exists st' hp' blk',
    (r <- _set_add_dst al st ts ;;
     store_at (fst r) (snd r) v ;;;
     set_pop (fst r) ;;;
     ret (fst r)) hp = Some (st', hp') /\
    hp' !! st' = Some blk' /\
    size blk' = size blk /\
    elements ts blk' = elements ts blk /\
    capacity blk <= capacity blk'.
Proof.
  intros Hst Hwf Hv Hok.
  destruct (append_one_spec al ts hp st blk v Hst Hwf Hv Hok)
    as (st1 & hp1 & blk1 & blk2 & Hrun1 & Hup1 & Hrun2 & Hwf2 & Hs2 & Hc2 & He2).
  pose proof (wf_capacity_max _ _ Hwf2) as Hmax.
  assert (0 <= size blk <= capacity blk) as Hs by (destruct Hwf; lia).
  eexists st1, _, _. split.
  { unfold bind at 1. rewrite Hrun1. simpl fst; simpl snd.
    unfold bind at 1. rewrite Hrun2. unfold bind.
    erewrite set_pop_spec by (apply lookup_insert_eq || (destruct Hwf2; lia)).
    reflexivity. }
  rewrite lookup_insert_eq. split; [done|]. simpl.
  split; [lia|]. split.
  - unfold elements; simpl. rewrite Hs2.
    replace (Z.to_nat (size blk + 1 - 1)) with (Z.to_nat (size blk)) by lia.
    rewrite <- (take_chunks _ (Z.to_nat (size blk)) (Z.to_nat (size blk2))) by lia.
    fold (elements ts blk2). rewrite He2.
    rewrite take_app_length'; [done|]. rewrite length_elements. done.
  - rewrite Hc2. destruct (capacity blk - size blk =? 0); lia.
Qed.

Lemma append_then_pop_restores_witness :
  exists st' hp' blk',
    (r <- _set_add_dst demo_allocator 1%positive 1 ;;
     store_at (fst r) (snd r) [Byte.x09] ;;;
     set_pop (fst r) ;;;
     ret (fst r)) demo_heap = Some (st', hp') /\
    hp' !! st' = Some blk' /\
    size blk' = 2 /\
    elements 1 blk' = [[Byte.x01]; [Byte.x02]].
Proof.
  destruct (append_then_pop_restores demo_allocator 1 demo_heap 1%positive demo_block
              [Byte.x09])
    as (st' & hp' & blk' & Hrun & Hst & Hs & He & _).
  - reflexivity.
  - exact demo_block_wf.
  - reflexivity.
  - intros _. apply demo_alloc_ok. simpl. lia.
  - exists st', hp', blk'. split; [exact Hrun|]. split; [exact Hst|].
    split; [exact Hs|exact He].
Defined.

(** Inserting an element at a position and removing at the same position
    gives back the size and the elements the container had. *)
Theorem insert_then_remove_restores al ts (hp : heap) st blk pos v :
  hp !! st = Some blk -> wf ts blk -> 0 <= pos <= size blk ->
  Z.of_nat (length v) = ts ->
  (size blk = capacity blk -> alloc_ok ts (Z.max 1 (capacity blk * 2))) ->
  exists st' hp' blk',
    (r <- _set_insert_dst al st ts pos ;;
     store_at (fst r) (snd r) v ;;;
     _set_remove (fst r) ts pos ;;;
     ret (fst r)) hp = Some (st', hp') /\
    hp' !! st' = Some blk' /\
    size blk' = size blk /\
    elements ts blk' = elements ts blk.
Proof.
  intros Hst Hwf Hpos Hv Hok.
  destruct (insert_one_spec al ts hp st blk pos v Hst Hwf Hpos Hok Hv)
    as (st1 & hp1 & blk1 & x & blk2 & Hrun1 & Hup1 & _ & _ & Hrun2 & Hwf2 & Hs2 & He2).
  destruct (_set_erase_spec (<[st1 := blk2]> hp1) st1 blk2 ts pos 1
              (lookup_insert_eq _ _ _) Hwf2)
    as (blk3 & Hrun3 & Hs3 & _ & He3 & _); [lia..|].
  eexists st1, _, blk3. split.
  { unfold bind at 1. rewrite Hrun1. simpl fst; simpl snd.
    unfold bind at 1. rewrite Hrun2. unfold bind, _set_remove. rewrite Hrun3.
    reflexivity. }
  rewrite lookup_insert_eq. split; [done|]. split; [lia|].
  rewrite He3, He2.
  pose proof (length_elements ts blk) as Hlen.
  assert (length (take (Z.to_nat pos) (elements ts blk)) = Z.to_nat pos) as Hp
    by (rewrite length_take; lia).
  rewrite take_app_length' by done.
  rewrite (Z2Nat.inj_add pos 1) by lia.
  rewrite drop_app_add' by done.
  change (Z.to_nat 1) with 1%nat. simpl. rewrite drop_0.
  apply take_drop.
Qed.

Lemma insert_then_remove_restores_witness :
  exists st' hp' blk',
    (r <- _set_insert_dst demo_allocator 1%positive 1 1 ;;
     store_at (fst r) (snd r) [Byte.x09] ;;;
     _set_remove (fst r) 1 1 ;;;
     ret (fst r)) demo_heap = Some (st', hp') /\
    hp' !! st' = Some blk' /\
    size blk' = 2 /\
    elements 1 blk' = [[Byte.x01]; [Byte.x02]].
Proof.
  destruct (insert_then_remove_restores demo_allocator 1 demo_heap 1%positive demo_block
              1 [Byte.x09])
    as (st' & hp' & blk' & Hrun & Hst & Hs & He).
  - reflexivity.
  - exact demo_block_wf.
  - simpl; lia.
  - reflexivity.
  - intros _. apply demo_alloc_ok. simpl. lia.
  - exists st', hp', blk'. split; [exact Hrun|]. split; [exact Hst|].
    split; [exact Hs|exact He].
Defined.

(** *** A copy has no slack *)

(** Since a copy is allocated with capacity equal to its size, the first
    append to a copy always reallocates, to [max 1 (2 * size)] slots; the
    source, at its own address, is not affected. *)
Theorem append_to_copy_reallocates al ts (hp : heap) st blk :
  hp !! st = Some blk -> wf ts blk ->
  alloc_ok ts (Z.max 1 (size blk * 2)) ->
  exists c hp1 c' hp2 blk2,
    _set_copy al st ts hp = Some (c, hp1) /\
    set_has_space c hp1 = Some (false, hp1) /\
    _set_add_dst al c ts hp1 = Some ((c', size blk * ts), hp2) /\
    hp2 !! c' = Some blk2 /\
    capacity blk2 = Z.max 1 (size blk * 2) /\
    size blk2 = size blk + 1 /\
    hp2 !! st = Some blk.
Proof.
  intros Hst Hwf Hok.
  pose proof (fresh_unused hp) as Hfresh.
  assert (st ≠ fresh (dom hp)) as Hne by congruence.
  set (c := fresh (dom hp)) in *.
  set (cblk := mk_header (size blk) (size blk)
                 (take (Z.to_nat (size blk * ts)) (data blk))).
  set (hp1 := <[c := cblk]> hp).
  assert (hp1 !! c = Some cblk) as Hc by apply lookup_insert_eq.
  assert (wf ts cblk) as Hwfc.
  { destruct Hwf as [Hts Hs Hd Ha]. split; simpl; [done|lia| |nia].
    rewrite length_take. nia. }
  destruct (_set_add_dst_spec al hp1 c cblk ts Hc Hwfc)
    as (c' & hp2 & blk2 & Hrun & Hup & Hs2 & Hc2 & _ & _); [done|].
  simpl in Hrun, Hs2, Hc2. rewrite Z.sub_diag in Hc2. simpl in Hc2.
  exists c, hp1, c', hp2, blk2.
  split; [by apply _set_copy_spec|]. split.
  { rewrite (set_has_space_spec hp1 c cblk Hc); simpl.
    - by rewrite Z.sub_diag.
    - destruct Hwf; lia.
    - pose proof (wf_capacity_max _ _ Hwf). destruct Hwf. lia. }
  split; [exact Hrun|]. split; [exact (updated_lookup _ _ _ _ _ Hup)|].
  split; [exact Hc2|]. split; [exact Hs2|].
  eapply (updated_frame _ _ _ _ _ st blk Hup); [done|].
  subst hp1. by rewrite lookup_insert_ne.
Qed.

Lemma append_to_copy_reallocates_witness :
  exists c hp1 c' hp2 blk2,
    _set_copy demo_allocator 1%positive 1 demo_heap = Some (c, hp1) /\
    _set_add_dst demo_allocator c 1 hp1 = Some ((c', 2), hp2) /\
    hp2 !! c' = Some blk2 /\
    capacity blk2 = 4.
Proof.
  destruct (append_to_copy_reallocates demo_allocator 1 demo_heap 1%positive demo_block)
    as (c & hp1 & c' & hp2 & blk2 & Hcopy & _ & Hadd & Hst & Hc & _).
  - reflexivity.
  - exact demo_block_wf.
  - apply demo_alloc_ok. simpl. lia.
  - exists c, hp1, c', hp2, blk2. split; [exact Hcopy|]. split; [exact Hadd|].
    split; [exact Hst|exact Hc].
Defined.
